(** * Feature extraction, model selection and annotation of [bot.py]

    A shallow embedding of the three request-time pieces of [bot.py]:
    [extract_image_features], the model lookup of [handle_photo] and
    [draw_boxes], together with the properties stated about them.

    Conventions.
    - A Python [float] / [np.float64] value is the rational it denotes and
      every arithmetic operation of the source rounds its exact result to
      binary64 (ties to even); tensor elements are binary32.  Infinities,
      NaN and overflow are outside the model.  [int(x)] is truncation
      toward zero, the [.0f] format is round-half-to-even.
    - The calls into OpenCV are taken through the interface [OpenCV]: the
      general theorems hold for every implementation of it.  The module
      [Cv2] gives the 8-bit reference behaviour of the library on the
      uniform images used below.
    - Image objects live in a store; [ImageDraw] paints through a rasteriser
      that is a parameter, and every drawing call is recorded in a trace. *)

From Stdlib Require Import ZArith QArith Qround Qabs Qminmax Qpower List Lia Lqa.
From stdpp Require Import gmap strings list pretty.

Local Open Scope Z_scope.

(** ** Python values and exceptions *)

Inductive exn : Type :=
| ZeroDivisionError
| IndexError
| KeyError (key : string)
| ValueError
| Cv2Error.

Inductive result (A : Type) : Type :=
| Ok (a : A)
| Raise (e : exn).
Arguments Ok {A} a.
Arguments Raise {A} e.

(** [int(x)] on a float: truncation toward zero. *)
Definition py_int (x : Q) : Z := Z.quot (Qnum x) (Zpos (Qden x)).

Definition Qlt_bool (x y : Q) : bool := negb (Qle_bool y x).

(** [min(a, b)] and [max(a, b)] of Python return the first argument unless
    the second is strictly smaller (resp. larger). *)
Definition py_min_Q (a b : Q) : Q := if Qlt_bool b a then b else a.
Definition py_max_Z (a b : Z) : Z := if a <? b then b else a.
Definition py_min_Z (a b : Z) : Z := if b <? a then b else a.

(** Round half to even, the rounding of the [.0f] conversion. *)
Definition round_half_even (x : Q) : Z :=
  let f := Qfloor x in
  let d := (x - inject_Z f)%Q in
  if Qlt_bool d (1 # 2) then f
  else if Qlt_bool (1 # 2) d then f + 1
  else if Z.even f then f else f + 1.

(** [f"{x:.0f}"]: sign, then the digits of the rounded magnitude (a negative
    value that rounds to zero prints as "-0"). *)
Definition format_0f (x : Q) : string :=
  if Qlt_bool x 0 then "-" +:+ pretty (round_half_even (Qabs x))
  else pretty (round_half_even x).

(** ** Binary floating point *)

(** [floor(log2 x)] of a positive rational. *)
Definition ilog2 (x : Q) : Z :=
  let k := Z.log2 (Qnum x) - Z.log2 (Zpos (Qden x)) in
  if Qle_bool (2 ^ k) x then k else k - 1.

(** The nearest value with [prec] bits of precision and least exponent
    [emin], ties to even. *)
Definition round_to (prec emin : Z) (x : Q) : Q :=
  let a := Qabs x in
  let e := Z.max (ilog2 a - (prec - 1)) emin in
  let r := Qred (inject_Z (round_half_even (a / 2 ^ e)) * 2 ^ e) in
  if Qlt_bool x 0 then (- r)%Q else r.

(** binary64: Python [float], [np.float64]; also the value of a literal. *)
Definition fl64 : Q -> Q := round_to 53 (-1074).
(** binary32: the elements of a [torch.float32] tensor. *)
Definition fl32 : Q -> Q := round_to 24 (-149).

Definition fadd (x y : Q) : Q := fl64 (x + y).
Definition fsub (x y : Q) : Q := fl64 (x - y).
Definition fmul (x y : Q) : Q := fl64 (x * y).
Definition fdiv (x y : Q) : Q := fl64 (x / y).
(** An [int] operand of a float operation. *)
Definition of_int (z : Z) : Q := fl64 (inject_Z z).

(** ** Images as NumPy sees them *)

Definition rgb : Type := Z * Z * Z.

(** [np.array(image)]: shape [(h, w)] for a single-channel image and
    [(h, w, 3)] for an RGB one; entries are [uint8]. *)
Inductive ndarray : Type :=
| Gray (rows : list (list Z))
| Color (rows : list (list rgb)).

Definition sum_Z (l : list Z) : Z := fold_right Z.add 0 l.

Definition channels (p : rgb) : list Z :=
  let '(r, g, b) := p in [r; g; b].

Definition flat_values (a : ndarray) : list Z :=
  match a with
  | Gray rows => concat rows
  | Color rows => concat (map channels (concat rows))
  end.

(** [np.sum] of a [uint8] array accumulates in [uint64]. *)
Definition np_sum (a : ndarray) : Z := sum_Z (flat_values a) mod 2 ^ 64.

(** The float64 sum of NumPy's [add.reduce]: pairwise summation with
    eight running sums on blocks of at most 128 elements. *)
Fixpoint add_blocks (k : nat) (r b : list Q) : list Q :=
  match k with
  | O => r
  | S k' => add_blocks k' (zip_with fadd r (take 8 b)) (drop 8 b)
  end.

Definition block_sum (a : list Q) : Q :=
  let n := length a in
  let full := take (n - n mod 8)%nat a in
  let r := add_blocks (length full / 8 - 1)%nat (take 8 full) (drop 8 full) in
  let at_ i := nth i r 0%Q in
  let res := fadd (fadd (fadd (at_ 0%nat) (at_ 1%nat))
                        (fadd (at_ 2%nat) (at_ 3%nat)))
                  (fadd (fadd (at_ 4%nat) (at_ 5%nat))
                        (fadd (at_ 6%nat) (at_ 7%nat))) in
  fold_left fadd (drop (n - n mod 8)%nat a) res.

Fixpoint pairwise_sum (fuel : nat) (a : list Q) : Q :=
  let n := length a in
  if (n <? 8)%nat then fold_left fadd a 0%Q
  else if (n <=? 128)%nat then block_sum a
  else match fuel with
       | O => block_sum a
       | S fuel' =>
           let n2 := (n / 2 - (n / 2) mod 8)%nat in
           fadd (pairwise_sum fuel' (take n2 a))
                (pairwise_sum fuel' (drop n2 a))
       end.

(** [np.mean] of a float64 sequence; the empty mean (NaN in NumPy) is 0. *)
Definition np_mean (l : list Q) : Q :=
  fdiv (pairwise_sum (length l) l) (of_int (Z.of_nat (length l))).

(** [np.mean] of a [uint8] plane: the sum is exact in float64. *)
Definition np_mean_plane (p : list (list Z)) : Q :=
  np_mean (map inject_Z (concat p)).

(** The slices [hsv[:,:,1]] and [hsv[:,:,2]]. *)
Definition plane_1 (a : list (list rgb)) : list (list Z) :=
  map (map (fun p : rgb => snd (fst p))) a.
Definition plane_2 (a : list (list rgb)) : list (list Z) :=
  map (map (fun p : rgb => snd p)) a.

(** ** The OpenCV calls of [extract_image_features] *)

Definition contour : Type := list (Z * Z).

Record OpenCV : Type := {
  cvtColor_RGB2HSV : list (list rgb) -> list (list rgb);
  cvtColor_RGB2GRAY : list (list rgb) -> list (list Z);
  (** [cv2.Sobel(gray, cv2.CV_64F, dx, dy, ksize=3)] *)
  Sobel : list (list Z) -> Z -> Z -> list (list Q);
  (** [np.sqrt] on one entry *)
  np_sqrt : Q -> Q;
  (** second result of
      [cv2.threshold(gray, 0, 255, THRESH_BINARY + THRESH_OTSU)] *)
  threshold_otsu : list (list Z) -> list (list Z);
  (** first result of
      [cv2.findContours(binary, RETR_EXTERNAL, CHAIN_APPROX_SIMPLE)] *)
  findContours : list (list Z) -> list contour;
  contourArea : contour -> Q
}.

(** ** [extract_image_features] *)

Record Image : Type := {
  im_size : Z * Z;        (** [(w, h)] *)
  im_array : ndarray
}.

(** The list [[num_objects_mod, mean_area_mod, categories_mod, ratio_hw]]. *)
Record Features : Type := {
  num_objects_mod : Z;
  mean_area_mod : Q;
  categories_mod : Z;
  ratio_hw : Q
}.

Section Extract.
Variable cv : OpenCV.

(** [img_hash = np.sum(img_array) % 1000 / 1000.0] *)
Definition img_hash (a : ndarray) : Q :=
  fdiv (inject_Z (np_sum a mod 1000)) 1000.

Definition gray_of (a : ndarray) : list (list Z) :=
  match a with
  | Color rows => cvtColor_RGB2GRAY cv rows
  | Gray rows => rows
  end.

Definition saturation (a : ndarray) : Q :=
  match a with
  | Color rows => fdiv (np_mean_plane (plane_1 (cvtColor_RGB2HSV cv rows))) 255
  | Gray _ => 0%Q
  end.

Definition brightness (a : ndarray) : Q :=
  match a with
  | Color rows => fdiv (np_mean_plane (plane_2 (cvtColor_RGB2HSV cv rows))) 255
  | Gray rows => fdiv (np_mean_plane rows) 255
  end.

(** [np.sqrt(sobelx**2 + sobely**2)], entry by entry. *)
Definition gradient_magnitude (gray : list (list Z)) : list (list Q) :=
  let sobelx := Sobel cv gray 1 0 in
  let sobely := Sobel cv gray 0 1 in
  zip_with (zip_with (fun gx gy =>
                        np_sqrt cv (fadd (fmul gx gx) (fmul gy gy))))
           sobelx sobely.

Definition detail_level (a : ndarray) : Q :=
  fdiv (np_mean (concat (gradient_magnitude (gray_of a)))) 255.

(** [min_area = (w * h) * 0.001] *)
Definition min_area (w h : Z) : Q := fmul (of_int (w * h)) (fl64 (1 # 1000)).

Definition significant_contours (w h : Z) (a : ndarray) : list contour :=
  let binary := threshold_otsu cv (gray_of a) in
  let contours := findContours cv binary in
  filter (fun c => Is_true (Qlt_bool (min_area w h) (contourArea cv c)))
         contours.

Definition num_objects (w h : Z) (a : ndarray) : Z :=
  Z.of_nat (length (significant_contours w h a)).

Definition mean_area (w h : Z) (a : ndarray) : Q :=
  if 0 <? num_objects w h a
  then fdiv (np_mean (map (contourArea cv) (significant_contours w h a)))
            (of_int (w * h))
  else fl64 (1 # 10).

(** The two perturbation factors and the category proxy of lines 85-87. *)
Definition count_factor (a : ndarray) : Q :=
  fadd (fl64 (8 # 10)) (fmul (fl64 (4 # 10)) (img_hash a)).

Definition area_factor (a : ndarray) : Q :=
  fadd (fl64 (7 # 10)) (fmul (fl64 (6 # 10)) (img_hash a)).

Definition category_proxy (a : ndarray) : Q :=
  fadd (fadd (fmul 5 (saturation a)) (fmul 3 (detail_level a)))
       (fmul 2 (img_hash a)).

(** Line 48 divides by the width; at height 0 the array is empty and the
    first OpenCV call ([cvtColor], or [Sobel] for a single channel) raises
    [cv2.error]. *)
Definition extract_image_features (image : Image) : result Features :=
  let '(w, h) := im_size image in
  if w =? 0 then Raise ZeroDivisionError else
  let ratio := fl64 (inject_Z h / inject_Z w) in
  let img_array := im_array image in
  if h =? 0 then Raise Cv2Error else
  let n_mod :=
    py_max_Z 1 (py_int (fmul (of_int (num_objects w h img_array))
                             (count_factor img_array))) in
  let area_mod := fmul (mean_area w h img_array) (area_factor img_array) in
  let cat_mod := py_max_Z 1 (py_int (category_proxy img_array)) in
  Ok {| num_objects_mod := n_mod;
        mean_area_mod := py_min_Q area_mod 1;
        categories_mod := py_min_Z cat_mod 10;
        ratio_hw := ratio |}.
End Extract.

(** ** Reference behaviour of the OpenCV calls on uniform images

    Colour conversions, the Sobel operator and the contour area follow the
    library's 8-bit integer algorithms.  Otsu's threshold is computed in
    exact arithmetic: it is the library's threshold when one level strictly
    maximises the between-class variance and on uniform planes, where every
    level is skipped and the threshold is 0.  [find_contours] returns the
    outline of the bounding box of the foreground, which is the library's
    answer when the foreground of the mask is empty or one filled
    axis-aligned rectangle.  The theorems use this module on uniform images
    only, whose masks are entirely background or entirely foreground. *)

Module Cv2.

Definition max3 (a b c : Z) : Z := Z.max a (Z.max b c).
Definition min3 (a b c : Z) : Z := Z.min a (Z.min b c).

(** [saturate_cast<int>] of a positive quotient: rounding to nearest. *)
Definition div_table (scale i : Z) : Z :=
  if i =? 0 then 0 else round_half_even (inject_Z scale / inject_Z i)%Q.

Definition hsv_shift : Z := 12.

Definition rgb2hsv (p : rgb) : rgb :=
  let '(r, g, b) := p in
  let v := max3 r g b in
  let vmin := min3 r g b in
  let diff := v - vmin in
  let s := Z.shiftr (diff * div_table (Z.shiftl 255 hsv_shift) v
                     + Z.shiftl 1 (hsv_shift - 1)) hsv_shift in
  let h0 := if v =? r then g - b
            else if v =? g then b - r + 2 * diff
            else r - g + 4 * diff in
  let h1 := Z.shiftr (h0 * div_table (Z.shiftl 180 hsv_shift) (6 * diff)
                      + Z.shiftl 1 (hsv_shift - 1)) hsv_shift in
  let h := if h1 <? 0 then h1 + 180 else h1 in
  (h, s, v).

Definition rgb2gray (p : rgb) : Z :=
  let '(r, g, b) := p in
  Z.shiftr (r * 9798 + g * 19235 + b * 3735 + Z.shiftl 1 14) 15.

(** Pixel access with [BORDER_REFLECT_101]. *)
Definition reflect101 (n p : Z) : Z :=
  if n <=? 1 then 0
  else if p <? 0 then - p
  else if n <=? p then 2 * n - 2 - p
  else p.

Definition at_ (g : list (list Z)) (y x : Z) : Z :=
  let hh := Z.of_nat (length g) in
  let row := nth (Z.to_nat (reflect101 hh y)) g [] in
  let ww := Z.of_nat (length row) in
  nth (Z.to_nat (reflect101 ww x)) row 0.

Definition sobel_x (g : list (list Z)) (y x : Z) : Z :=
  (at_ g (y - 1) (x + 1) - at_ g (y - 1) (x - 1))
  + 2 * (at_ g y (x + 1) - at_ g y (x - 1))
  + (at_ g (y + 1) (x + 1) - at_ g (y + 1) (x - 1)).

Definition sobel_y (g : list (list Z)) (y x : Z) : Z :=
  (at_ g (y + 1) (x - 1) - at_ g (y - 1) (x - 1))
  + 2 * (at_ g (y + 1) x - at_ g (y - 1) x)
  + (at_ g (y + 1) (x + 1) - at_ g (y - 1) (x + 1)).

Definition sobel (g : list (list Z)) (dx dy : Z) : list (list Q) :=
  imap (fun y row =>
          imap (fun x _ =>
                  inject_Z (if (dx =? 1) && (dy =? 0)
                            then sobel_x g (Z.of_nat y) (Z.of_nat x)
                            else if (dx =? 0) && (dy =? 1)
                            then sobel_y g (Z.of_nat y) (Z.of_nat x)
                            else 0))
               row) g.

(** Square root: the integer square root with 64 extra bits, rounded to
    binary64; exact on squares. *)
Definition sqrt (x : Q) : Q :=
  let n := Qnum (Qred x) in
  let d := Zpos (Qden (Qred x)) in
  fl64 (Qmake (Z.sqrt (n * d * 4 ^ 64)) (Z.to_pos (d * 2 ^ 64))).

(** Otsu's threshold on the 256-bin histogram. *)
Definition histogram (g : list (list Z)) : list Z :=
  let px := concat g in
  map (fun i => Z.of_nat (length (filter (fun v => v = i) px)))
      (map Z.of_nat (seq 0 256)).

Definition FLT_EPSILON : Q := 1 # 8388608.

Record otsu_state : Type := {
  mu1 : Q; q1 : Q; max_sigma : Q; max_val : Z
}.

Definition otsu_step (scale mu : Q) (st : otsu_state) (ih : Z * Z)
  : otsu_state :=
  let '(i, hi) := ih in
  let p_i := (inject_Z hi * scale)%Q in
  let m1 := (mu1 st * q1 st)%Q in
  let q1' := Qred (q1 st + p_i)%Q in
  let q2 := (1 - q1')%Q in
  if Qlt_bool (Qmin q1' q2) FLT_EPSILON
     || Qlt_bool (1 - FLT_EPSILON) (Qmax q1' q2)
  then {| mu1 := m1; q1 := q1'; max_sigma := max_sigma st;
          max_val := max_val st |}
  else
    let m1' := Qred ((m1 + inject_Z i * p_i) / q1')%Q in
    let m2 := ((mu - q1' * m1') / q2)%Q in
    let sigma := Qred (q1' * q2 * (m1' - m2) * (m1' - m2))%Q in
    if Qlt_bool (max_sigma st) sigma
    then {| mu1 := m1'; q1 := q1'; max_sigma := sigma; max_val := i |}
    else {| mu1 := m1'; q1 := q1'; max_sigma := max_sigma st;
            max_val := max_val st |}.

Definition otsu (g : list (list Z)) : Z :=
  let hist := histogram g in
  let bins := zip (map Z.of_nat (seq 0 256)) hist in
  let scale := (1 / inject_Z (sum_Z hist))%Q in
  let mu := Qred (inject_Z (sum_Z (map (fun ih : Z * Z =>
                                         (fst ih * snd ih)%Z) bins))
                  * scale)%Q in
  max_val (fold_left (otsu_step scale mu) bins
             {| mu1 := 0; q1 := 0; max_sigma := 0; max_val := 0 |}).

(** [THRESH_BINARY + THRESH_OTSU] with [maxval = 255]. *)
Definition threshold (g : list (list Z)) : list (list Z) :=
  let t := otsu g in
  map (map (fun v => if t <? v then 255 else 0)) g.

Definition foreground (mask : list (list Z)) : list (Z * Z) :=
  concat (imap (fun y row =>
                  omap (fun xv : nat * Z =>
                          if snd xv =? 0 then None
                          else Some (Z.of_nat (fst xv), Z.of_nat y))
                       (imap (fun x v => (x, v)) row)) mask).

Fixpoint dedup_adjacent (l : list (Z * Z)) : list (Z * Z) :=
  match l with
  | a :: (b :: _) as tl =>
      if decide (a = b) then dedup_adjacent tl else a :: dedup_adjacent tl
  | _ => l
  end.

Definition close_ring (l : list (Z * Z)) : list (Z * Z) :=
  match l with
  | a :: _ :: _ => if decide (last l = Some a) then removelast l else l
  | _ => l
  end.

Definition find_contours (mask : list (list Z)) : list contour :=
  match foreground mask with
  | [] => []
  | (x, y) :: rest =>
      let xs := map fst rest in
      let ys := map snd rest in
      let x0 := fold_right Z.min x xs in
      let x1 := fold_right Z.max x xs in
      let y0 := fold_right Z.min y ys in
      let y1 := fold_right Z.max y ys in
      [close_ring (dedup_adjacent [(x0, y0); (x0, y1); (x1, y1); (x1, y0)])]
  end.

(** [cv2.contourArea]: absolute value of the shoelace sum, halved. *)
Fixpoint shoelace (first : Z * Z) (l : list (Z * Z)) : Z :=
  match l with
  | [] => 0
  | [p] => fst p * snd first - fst first * snd p
  | p :: (q :: _) as tl => (fst p * snd q - fst q * snd p) + shoelace first tl
  end.

Definition contour_area (c : contour) : Q :=
  match c with
  | [] => 0
  | p :: _ => Qmake (Z.abs (shoelace p c)) 2
  end.

Definition reference : OpenCV := {|
  cvtColor_RGB2HSV := map (map rgb2hsv);
  cvtColor_RGB2GRAY := map (map rgb2gray);
  Sobel := sobel;
  np_sqrt := sqrt;
  threshold_otsu := threshold;
  findContours := find_contours;
  contourArea := contour_area
|}.

End Cv2.

(** Uniform test images. *)
Definition solid_rgb (w h : nat) (p : rgb) : Image :=
  {| im_size := (Z.of_nat w, Z.of_nat h);
     im_array := Color (replicate h (replicate w p)) |}.

Definition white_100 : Image := solid_rgb 100 100 (255, 255, 255).
Definition black_100 : Image := solid_rgb 100 100 (0, 0, 0).
Definition red_1 : Image := solid_rgb 1 1 (255, 0, 0).
Definition red_3 : Image := solid_rgb 3 3 (255, 0, 0).

(** ** The store of image objects and the effects of [ImageDraw] *)

Definition loc : Type := positive.

Inductive Font : Type :=
| TrueType (file : string) (size : Z)
| DefaultFont.

Definition box : Type := (Q * Q * Q * Q)%type.

Inductive DrawCmd : Type :=
| Rectangle (xy : box) (outline : string) (width : Z)
| Text (xy : Q * Q) (text : string) (font : Font) (fill : string).

Record World : Type := {
  heap : gmap loc Image;          (** the live image objects *)
  font_files : gset string;       (** font files that [truetype] can open *)
  trace : list (loc * DrawCmd)    (** drawing calls carried out so far *)
}.

(** Computations that read and update the world and may raise; what was
    done before an exception stays done. *)
Definition M (A : Type) : Type := World -> result A * World.

#[export] Instance M_ret : MRet M := fun A a w => (Ok a, w).
#[export] Instance M_bind : MBind M := fun A B f m w =>
  match m w with
  | (Ok a, w') => f a w'
  | (Raise e, w') => (Raise e, w')
  end.

Definition lift {A} (r : result A) : M A := fun w => (r, w).

Fixpoint for_each {A} (l : list A) (body : A -> M unit) : M unit :=
  match l with
  | [] => mret tt
  | a :: l' => body a ;; for_each l' body
  end.

(** [zip(boxes, labels, scores)] stops with the shortest sequence. *)
Fixpoint zip3 {A B C} (la : list A) (lb : list B) (lc : list C)
  : list (A * B * C) :=
  match la, lb, lc with
  | a :: la', b :: lb', c :: lc' => (a, b, c) :: zip3 la' lb' lc'
  | _, _, _ => []
  end.

(** [l[i]] on a Python list: a negative index counts from the end. *)
Definition py_getitem {A} (l : list A) (i : Z) : result A :=
  let n := Z.of_nat (length l) in
  let j := if i <? 0 then i + n else i in
  if (j <? 0) || (n <=? j) then Raise IndexError
  else match l !! Z.to_nat j with
       | Some x => Ok x
       | None => Raise IndexError
       end.

(** [score*100] on an element of a float32 tensor. *)
Definition percent (score : Q) : Q := fl32 (score * 100).

(** Line 108: [f"{categories[lbl]} {score*100:.0f}%"]. *)
Definition make_label (categories : list string) (lbl : Z) (score : Q)
  : result string :=
  match py_getitem categories lbl with
  | Ok name => Ok (name +:+ " " +:+ format_0f (percent score) +:+ "%")
  | Raise e => Raise e
  end.

Definition text_offsets : list (Q * Q) :=
  [(-1, -1); (-1, 0); (-1, 1); (0, -1); (0, 1); (1, -1); (1, 0); (1, 1)]%Q.

(** [ImageDraw.rectangle] rejects a box whose second corner is left of or
    above the first ("x1 must be greater than or equal to x0"). *)
Definition inverted (bx : box) : bool :=
  let '(x1, y1, x2, y2) := bx in Qlt_bool x2 x1 || Qlt_bool y2 y1.

Definition rejected (c : DrawCmd) : bool :=
  match c with
  | Rectangle bx _ _ => inverted bx
  | Text _ _ _ _ => false
  end.

(** ** Detections and the model registry *)

Record Prediction : Type := {
  pred_boxes : list box;
  pred_labels : list Z;
  pred_scores : list Q
}.

(** An entry of [models_available]. *)
Record ModelEntry : Type := {
  me_name : string;
  me_model : Image -> Prediction;
  me_categories : list string
}.

(** [models_available[chosen_key]] *)
Definition lookup_model (models_available : gmap string ModelEntry)
    (chosen_key : string) : result ModelEntry :=
  match models_available !! chosen_key with
  | Some info => Ok info
  | None => Raise (KeyError chosen_key)
  end.

Section Draw.
(** The rasteriser of [ImageDraw]: how one drawing call changes the pixels. *)
Variable paint : DrawCmd -> ndarray -> ndarray.

Definition paint_image (c : DrawCmd) (im : Image) : Image :=
  {| im_size := im_size im; im_array := paint c (im_array im) |}.

(** The world after a drawing call that was carried out on [image]: its
    pixels changed in place and the call is recorded. *)
Definition carry_out (image : loc) (c : DrawCmd) (w : World) : World :=
  {| heap := alter (paint_image c) image (heap w);
     font_files := font_files w;
     trace := trace w ++ [(image, c)] |}.

(** One call on [ImageDraw.Draw(image)]: a rejected rectangle raises
    [ValueError] and draws nothing. *)
Definition draw (image : loc) (c : DrawCmd) : M unit := fun w =>
  if rejected c then (Raise ValueError, w)
  else (Ok tt, carry_out image c w).

(** [ImageFont.truetype("OCR-B.ttf", 16)] with the [IOError] fallback. *)
Definition load_font : M Font := fun w =>
  (Ok (if decide ("OCR-B.ttf" ∈ font_files w)
       then TrueType "OCR-B.ttf" 16 else DefaultFont), w).

(** A new image object holding [im], as created by [Image.open] or
    [convert]. *)
Definition new_image (im : Image) : M loc := fun w =>
  let l := fresh (dom (heap w)) in
  (Ok l, {| heap := <[l := im]> (heap w);
            font_files := font_files w;
            trace := trace w |}).

(** [image.copy()]: a new object with the same size and pixels (a reference
    held by the program is never dangling; the last case is unreachable). *)
Definition image_copy (image : loc) : M loc := fun w =>
  match heap w !! image with
  | Some im => new_image im w
  | None => (Ok image, w)
  end.

(** The body of the loop of [draw_boxes] for one detection.  The guard
    compares the values of [score] and [threshold]; the default threshold
    0.5 is a binary32 number, like the scores. *)
Definition draw_detection (image : loc) (font : Font)
    (categories : list string) (threshold : Q) (d : box * Z * Q) : M unit :=
  let '(bx, lbl, score) := d in
  if Qlt_bool score threshold then mret tt else
  let '(x1, y1, x2, y2) := bx in
  draw image (Rectangle (x1, y1, x2, y2) "lime" 3) ;;
  label ← lift (make_label categories lbl score);
  for_each text_offsets (fun '(dx, dy) =>
    draw image (Text (fadd (fadd x1 3) dx, fadd (fsub y1 3) dy)
                     label font "black")) ;;
  draw image (Text (fadd x1 3, fsub y1 3) label font "white").

Definition draw_boxes (image : loc) (boxes : list box) (labels : list Z)
    (scores : list Q) (categories : list string) (threshold : Q) : M loc :=
  font ← load_font;
  for_each (zip3 boxes labels scores)
           (draw_detection image font categories threshold) ;;
  mret image.

(** ** The request pipeline of [handle_photo] (lines 136 to 150) *)

(** Line 150: [draw_boxes(image.copy(), boxes, labels, scores, categories)]
    with the default threshold. *)
Definition annotate (image : loc) (boxes : list box) (labels : list Z)
    (scores : list Q) (categories : list string) : M loc :=
  copy ← image_copy image;
  draw_boxes copy boxes labels scores categories (1 # 2).

Variable cv : OpenCV.
(** [selector.predict(df_feats)[0]], the pretrained classifier. *)
Variable selector : Features -> string.
Variable models_available : gmap string ModelEntry.

(** [decoded] is the result of [Image.open(...).convert("RGB")]; the
    result is the annotated image with the entry whose name goes into the
    caption.  [selector.predict] and the detector are functions here: the
    model covers the requests on which the download, the decoding and
    these two calls return. *)
Definition handle_photo (decoded : Image) : M (loc * ModelEntry) :=
  image ← new_image decoded;
  feats ← lift (extract_image_features cv decoded);
  let chosen_key := selector feats in
  model_info ← lift (lookup_model models_available chosen_key);
  let categories := me_categories model_info in
  let pred := me_model model_info decoded in
  result_img ← annotate image (pred_boxes pred) (pred_labels pred)
                        (pred_scores pred) categories;
  mret (result_img, model_info).
End Draw.

(** ** The perturbation step in the words of the specification

    [round] is rounding to the nearest integer (ties to even, as Python's
    [round]); everything else is as in [extract_image_features]. *)

Definition spec_round (x : Q) : Z := round_half_even x.

Definition spec_features (cv : OpenCV) (image : Image) : Features :=
  let '(w, h) := im_size image in
  let a := im_array image in
  {| num_objects_mod :=
       Z.max 1 (spec_round (fmul (of_int (num_objects cv w h a))
                                 (count_factor a)));
     mean_area_mod := Qmin (fmul (mean_area cv w h a) (area_factor a)) 1;
     categories_mod :=
       Z.max 1 (Z.min (spec_round (category_proxy cv a)) 10);
     ratio_hw := fl64 (inject_Z h / inject_Z w) |}.

(** ** What the loop of [draw_boxes] carries out for one detection *)

Definition label_marks (font : Font) (bx : box) (label : string)
  : list DrawCmd :=
  let '(x1, y1, x2, y2) := bx in
  Rectangle (x1, y1, x2, y2) "lime" 3
  :: map (fun '(dx, dy) =>
            Text (fadd (fadd x1 3) dx, fadd (fsub y1 3) dy)
                 label font "black") text_offsets
  ++ [Text (fadd x1 3, fsub y1 3) label font "white"].

Definition drawn_for (font : Font) (categories : list string) (threshold : Q)
    (d : box * Z * Q) : list DrawCmd :=
  let '(bx, lbl, score) := d in
  if Qlt_bool score threshold then []
  else if inverted bx then []
  else match make_label categories lbl score with
       | Ok label => label_marks font bx label
       | Raise _ => [Rectangle bx "lime" 3]
       end.

(** A box that [ImageDraw.rectangle] accepts. *)
Definition well_ordered (bx : box) : Prop :=
  let '(x1, y1, x2, y2) := bx in (x1 <= x2)%Q /\ (y1 <= y2)%Q.

(** The font that [load_font] yields in a world. *)
Definition font_of (w : World) : Font :=
  if decide ("OCR-B.ttf" ∈ font_files w)
  then TrueType "OCR-B.ttf" 16 else DefaultFont.

(** A label index that Python's list indexing rejects. *)
Definition out_of_range (categories : list string) (lbl : Z) : Prop :=
  Z.of_nat (length categories) <= lbl \/ lbl < - Z.of_nat (length categories).

(** The outcome of the loop body for one detection, and of the whole loop:
    the result and the drawing calls carried out until it ends or raises. *)
Definition detection_result (categories : list string) (threshold : Q)
    (d : box * Z * Q) : result unit :=
  let '(bx, lbl, score) := d in
  if Qlt_bool score threshold then Ok tt
  else if inverted bx then Raise ValueError
  else match make_label categories lbl score with
       | Ok _ => Ok tt
       | Raise e => Raise e
       end.

Fixpoint loop_run (font : Font) (categories : list string) (threshold : Q)
    (dets : list (box * Z * Q)) : result unit * list DrawCmd :=
  match dets with
  | [] => (Ok tt, [])
  | d :: ds =>
      match detection_result categories threshold d with
      | Ok _ =>
          let '(r, cmds) := loop_run font categories threshold ds in
          (r, drawn_for font categories threshold d ++ cmds)
      | Raise e => (Raise e, drawn_for font categories threshold d)
      end
  end.

Section Issue.
Variable paint : DrawCmd -> ndarray -> ndarray.

(** The world after a sequence of drawing calls carried out on one image. *)
Definition issue (image : loc) (cmds : list DrawCmd) (w : World) : World :=
  fold_left (fun w c => carry_out paint image c w) cmds w.
End Issue.

(** ** A plain rasteriser for running examples

    Rectangle outlines are painted inside the box with the given width;
    glyphs depend on font data and are left unpainted. *)

Module Pil.

Definition ink (colour : string) : rgb :=
  if decide (colour = "lime") then (0, 255, 0)
  else if decide (colour = "white") then (255, 255, 255)
  else (0, 0, 0).

Definition on_outline (bx : box) (width x y : Z) : bool :=
  let '(x1, y1, x2, y2) := bx in
  let '(a, b, c, d) := (py_int x1, py_int y1, py_int x2, py_int y2) in
  (a <=? x) && (x <=? c) && (b <=? y) && (y <=? d)
  && ((x <? a + width) || (c - width <? x)
      || (y <? b + width) || (d - width <? y)).

Definition luma (p : rgb) : Z :=
  let '(r, g, b) := p in (r * 299 + g * 587 + b * 114) / 1000.

Definition paint_rows {A} (bx : box) (width : Z) (v : A)
    (rows : list (list A)) : list (list A) :=
  imap (fun y row =>
          imap (fun x old =>
                  if on_outline bx width (Z.of_nat x) (Z.of_nat y)
                  then v else old) row) rows.

Definition paint (c : DrawCmd) (a : ndarray) : ndarray :=
  match c with
  | Rectangle bx outline width =>
      match a with
      | Color rows => Color (paint_rows bx width (ink outline) rows)
      | Gray rows => Gray (paint_rows bx width (luma (ink outline)) rows)
      end
  | Text _ _ _ _ => a
  end.

End Pil.

(** ** Example data *)

Definition coco2 : list string := ["person"; "car"].

Definition world0 : World :=
  {| heap := {[ 1%positive := solid_rgb 8 8 (0, 0, 0) ]};
     font_files := ∅;
     trace := [] |}.

(** A world with a second image, an installed font and earlier drawing. *)
Definition world1 : World :=
  {| heap := {[ 1%positive := solid_rgb 2 2 (9, 9, 9);
                2%positive := solid_rgb 8 8 (0, 0, 0) ]};
     font_files := {[ "OCR-B.ttf" ]};
     trace := [(1%positive, Rectangle (0, 0, 1, 1)%Q "lime" 3)] |}.

(** The second scenario of the specification and a detection exactly at the
    threshold, followed by one below it. *)
Definition scenario_boxes : list box :=
  [(10, 10, 50, 50); (1, 1, 5, 5); (2, 2, 6, 6)]%Q.
Definition scenario_labels : list Z := [0; 1; 1].
Definition scenario_scores : list Q := [fl32 (9 # 10); 1 # 2; fl32 (49 # 100)]%Q.

(** A registry of two entries with stub detectors, and a stub selector. *)
Definition stub_model (im : Image) : Prediction :=
  {| pred_boxes := scenario_boxes;
     pred_labels := scenario_labels;
     pred_scores := scenario_scores |}.

Definition registry2 : gmap string ModelEntry :=
  {[ "fasterrcnn" := {| me_name := "Faster R-CNN";
                        me_model := stub_model;
                        me_categories := coco2 |};
     "retinanet" := {| me_name := "RetinaNet";
                       me_model := stub_model;
                       me_categories := coco2 |} ]}.

Definition stub_selector (f : Features) : string :=
  if categories_mod f <? 3 then "fasterrcnn" else "ssd".

Definition red_1_features : Features :=
  Eval vm_compute in
    match extract_image_features Cv2.reference red_1 with
    | Ok f => f
    | Raise _ => {| num_objects_mod := 0; mean_area_mod := 0;
                    categories_mod := 0; ratio_hw := 0 |}
    end.

Definition black_100_features : Features :=
  Eval vm_compute in
    match extract_image_features Cv2.reference black_100 with
    | Ok f => f
    | Raise _ => {| num_objects_mod := 0; mean_area_mod := 0;
                    categories_mod := 0; ratio_hw := 0 |}
    end.

(** ** Auxiliary quantities of the proofs *)

(** Exponent of the last place and rounded magnitude of a nonnegative
    rational in a format of [prec] bits with least exponent [emin]. *)
Definition expo (prec emin : Z) (a : Q) : Z :=
  Z.max (ilog2 a - (prec - 1)) emin.

Definition rmag (prec emin : Z) (a : Q) : Q :=
  (inject_Z (round_half_even (a / 2 ^ expo prec emin a))
   * 2 ^ expo prec emin a)%Q.

(** The largest values the two perturbation factors can take. *)
Definition count_factor_max : Q :=
  Eval vm_compute in
    fadd (fl64 (8 # 10)) (fmul (fl64 (4 # 10)) (fl64 (999 # 1000))).

Definition area_factor_max : Q :=
  Eval vm_compute in
    fadd (fl64 (7 # 10)) (fmul (fl64 (6 # 10)) (fl64 (999 # 1000))).

(** The outline of the frame from (0,0) to (W,H). *)
Definition frame (W H : Z) : contour :=
  Cv2.close_ring (Cv2.dedup_adjacent [(0, 0); (0, H); (W, H); (W, 0)]).

(** * Properties *)

(** ** Arithmetic of the Python operators *)

Lemma Qlt_bool_iff (x y : Q) : Qlt_bool x y = true <-> (x < y)%Q.
Proof.
  unfold Qlt_bool. rewrite Bool.negb_true_iff. split.
  - intros H. apply Qnot_le_lt. intros Hle.
    apply Qle_bool_iff in Hle. congruence.
  - intros H. destruct (Qle_bool y x) eqn:E; [|reflexivity].
    apply Qle_bool_iff in E. exfalso. exact (Qlt_not_le _ _ H E).
Qed.

Lemma Qlt_bool_false_iff (x y : Q) : Qlt_bool x y = false <-> (y <= x)%Q.
Proof.
  unfold Qlt_bool. rewrite Bool.negb_false_iff. apply Qle_bool_iff.
Qed.

Lemma round_half_even_cases (x : Q) :
  round_half_even x = Qfloor x \/ round_half_even x = Qfloor x + 1.
Proof.
  unfold round_half_even.
  destruct (Qlt_bool _ _); [left; reflexivity|].
  destruct (Qlt_bool _ _); [right; reflexivity|].
  destruct (Z.even _); [left | right]; reflexivity.
Qed.

Lemma round_half_even_mono (x y : Q) :
  (x <= y)%Q -> round_half_even x <= round_half_even y.
Proof.
  intros Hxy. pose proof (Qfloor_resp_le x y Hxy) as Hf.
  destruct (Z.eq_dec (Qfloor x) (Qfloor y)) as [E|E].
  - unfold round_half_even. rewrite E.
    destruct (Qlt_bool (x - inject_Z (Qfloor y)) (1 # 2)) eqn:X1;
      destruct (Qlt_bool (1 # 2) (x - inject_Z (Qfloor y))) eqn:X2;
      destruct (Qlt_bool (y - inject_Z (Qfloor y)) (1 # 2)) eqn:Y1;
      destruct (Qlt_bool (1 # 2) (y - inject_Z (Qfloor y))) eqn:Y2;
      destruct (Z.even (Qfloor y));
      try lia; exfalso;
      repeat match goal with
             | H : Qlt_bool _ _ = true |- _ => apply Qlt_bool_iff in H
             | H : Qlt_bool _ _ = false |- _ => apply Qlt_bool_false_iff in H
             end; lra.
  - destruct (round_half_even_cases x) as [-> | ->],
             (round_half_even_cases y) as [-> | ->]; lia.
Qed.

Lemma round_half_even_lower (k : Z) (x : Q) :
  (inject_Z k <= x)%Q -> k <= round_half_even x.
Proof.
  intros H. assert (k <= Qfloor x).
  { rewrite <- (Qfloor_Z k). apply Qfloor_resp_le, H. }
  destruct (round_half_even_cases x) as [-> | ->]; lia.
Qed.

Lemma round_half_even_Z (k : Z) : round_half_even (inject_Z k) = k.
Proof.
  unfold round_half_even. rewrite Qfloor_Z.
  replace (Qlt_bool (inject_Z k - inject_Z k) (1 # 2)) with true;
    [reflexivity|].
  symmetry. apply Qlt_bool_iff. lra.
Qed.

Lemma round_half_even_upper (k : Z) (x : Q) :
  (x <= inject_Z k)%Q -> round_half_even x <= k.
Proof.
  intros H. rewrite <- (round_half_even_Z k).
  apply round_half_even_mono, H.
Qed.


Lemma Qlt_bool_comp (x x' y y' : Q) :
  (x == x')%Q -> (y == y')%Q -> Qlt_bool x y = Qlt_bool x' y'.
Proof.
  intros Hx Hy. destruct (Qlt_bool x' y') eqn:E.
  - apply Qlt_bool_iff. apply Qlt_bool_iff in E. rewrite Hx, Hy. exact E.
  - apply Qlt_bool_false_iff. apply Qlt_bool_false_iff in E.
    rewrite Hx, Hy. exact E.
Qed.

Lemma round_half_even_comp (x y : Q) :
  (x == y)%Q -> round_half_even x = round_half_even y.
Proof.
  intros H. apply Z.le_antisymm; apply round_half_even_mono;
    rewrite H; apply Qle_refl.
Qed.

Lemma round_half_even_nearest (x : Q) :
  (Qabs (x - inject_Z (round_half_even x)) <= 1 # 2)%Q.
Proof.
  pose proof (Qfloor_le x) as Hlo. pose proof (Qlt_floor x) as Hhi.
  rewrite inject_Z_plus in Hhi. change (inject_Z 1) with 1%Q in Hhi.
  apply Qabs_Qle_condition. unfold round_half_even.
  destruct (Qlt_bool (x - inject_Z (Qfloor x)) (1 # 2)) eqn:E1.
  - apply Qlt_bool_iff in E1. split; lra.
  - apply Qlt_bool_false_iff in E1.
    assert (Hup : (- (1 # 2) <= x - inject_Z (Qfloor x + 1) <= 1 # 2)%Q).
    { rewrite inject_Z_plus. change (inject_Z 1) with 1%Q. split; lra. }
    destruct (Qlt_bool (1 # 2) (x - inject_Z (Qfloor x))) eqn:E2;
      [exact Hup|].
    apply Qlt_bool_false_iff in E2.
    destruct (Z.even (Qfloor x)); [split; lra | exact Hup].
Qed.

Lemma py_max_Z_max (a b : Z) : py_max_Z a b = Z.max a b.
Proof. unfold py_max_Z. destruct (Z.ltb_spec a b); lia. Qed.

Lemma py_min_Z_min (a b : Z) : py_min_Z a b = Z.min a b.
Proof. unfold py_min_Z. destruct (Z.ltb_spec b a); lia. Qed.

Lemma py_min_Q_min (a b : Q) : (py_min_Q a b == Qmin a b)%Q.
Proof.
  unfold py_min_Q. destruct (Qlt_bool b a) eqn:E.
  - apply Qlt_bool_iff in E. symmetry. apply Q.min_r. apply Qlt_le_weak, E.
  - apply Qlt_bool_false_iff in E. symmetry. apply Q.min_l. exact E.
Qed.

Lemma py_min_Q_bounds (a : Q) : (0 <= a)%Q -> (0 <= py_min_Q a 1 <= 1)%Q.
Proof.
  intros Ha. unfold py_min_Q. destruct (Qlt_bool 1 a) eqn:E.
  - split; [discriminate | apply Qle_refl].
  - apply Qlt_bool_false_iff in E. split; assumption.
Qed.

Lemma Qdiv_nonneg (a b : Q) : (0 <= a)%Q -> (0 <= b)%Q -> (0 <= a / b)%Q.
Proof.
  intros Ha Hb. unfold Qdiv. apply Qmult_le_0_compat; [exact Ha|].
  apply Qinv_le_0_compat, Hb.
Qed.

Lemma inject_Z_nonneg (z : Z) : 0 <= z -> (0 <= inject_Z z)%Q.
Proof. intros H. change 0%Q with (inject_Z 0). rewrite <- Zle_Qle. exact H. Qed.

Lemma py_int_nonneg (x : Q) : (0 <= x)%Q -> py_int x = Qfloor x.
Proof.
  destruct x as [n d]. unfold Qle, py_int, Qfloor. simpl. intros H.
  apply Z.quot_div_nonneg; lia.
Qed.

Lemma Qfloor_lower (k : Z) (x : Q) : (inject_Z k <= x)%Q -> k <= Qfloor x.
Proof.
  intros H. rewrite <- (Qfloor_Z k). apply Qfloor_resp_le, H.
Qed.

(** ** Rounding to a binary format *)

(** Powers of two. *)
Lemma pow2_pos (z : Z) : (0 < 2 ^ z)%Q.
Proof. apply Qpower_0_lt. reflexivity. Qed.

Lemma pow2_add (x y : Z) : (2 ^ (x + y) == 2 ^ x * 2 ^ y)%Q.
Proof. apply Qpower_plus. discriminate. Qed.

Lemma pow2_le (x y : Z) : x <= y -> (2 ^ x <= 2 ^ y)%Q.
Proof. intros H. apply Qpower_le_compat_l; [exact H | discriminate]. Qed.

Lemma pow2_lt_inv (x y : Z) : (2 ^ x < 2 ^ y)%Q -> x < y.
Proof.
  intros H. destruct (Z.lt_ge_cases x y) as [L|L]; [exact L|].
  exfalso. apply (Qlt_not_le _ _ H). apply pow2_le, L.
Qed.

Lemma pow2_Z (z : Z) : 0 <= z -> (inject_Z (2 ^ z) == 2 ^ z)%Q.
Proof. intros H. apply (Zpower_Qpower 2 z H). Qed.

Lemma Qmake_div (n : Z) (d : positive) :
  (n # d == inject_Z n / inject_Z (Zpos d))%Q.
Proof. apply Qmake_Qdiv. Qed.

Lemma ilog2_spec (a : Q) :
  (0 < a)%Q -> (2 ^ ilog2 a <= a < 2 ^ (ilog2 a + 1))%Q.
Proof.
  intros Ha. destruct a as [n d]. unfold ilog2. cbn [Qnum Qden].
  assert (Hn : 0 < n) by (unfold Qlt in Ha; simpl in Ha; lia).
  pose proof (Z.log2_spec n Hn) as [HnL HnU].
  pose proof (Z.log2_spec (Zpos d) ltac:(lia)) as [HdL HdU].
  pose proof (Z.log2_nonneg n) as HA. pose proof (Z.log2_nonneg (Zpos d)) as HB.
  set (A := Z.log2 n) in *. set (B := Z.log2 (Zpos d)) in *.
  assert (Hd0 : (0 < inject_Z (Zpos d))%Q) by reflexivity.
  assert (HB0 : (0 < inject_Z (2 ^ B))%Q).
  { change 0%Q with (inject_Z 0). rewrite <- Zlt_Qlt. lia. }
  assert (HB1 : (0 < inject_Z (2 ^ (B + 1)))%Q).
  { change 0%Q with (inject_Z 0). rewrite <- Zlt_Qlt. lia. }
  (* n/d < 2^(A+1) / 2^B and 2^A / 2^(B+1) <= n/d *)
  assert (F1 : (n # d < 2 ^ (A - B + 1))%Q).
  { replace (A - B + 1) with ((A + 1) - B) by lia.
    rewrite Qpower_minus by discriminate.
    rewrite <- !pow2_Z by lia. rewrite Qmake_div.
    apply Qlt_shift_div_l; [exact HB0|].
    unfold Qdiv. rewrite <- Qmult_assoc, (Qmult_comm (/ _)), Qmult_assoc.
    apply Qlt_shift_div_r; [exact Hd0|].
    rewrite <- !inject_Z_mult, <- Zlt_Qlt. nia. }
  assert (F2 : (2 ^ (A - B - 1) <= n # d)%Q).
  { replace (A - B - 1) with (A - (B + 1)) by lia.
    rewrite Qpower_minus by discriminate.
    rewrite <- !pow2_Z by lia. rewrite Qmake_div.
    apply Qle_shift_div_r; [exact HB1|].
    unfold Qdiv. rewrite <- Qmult_assoc, (Qmult_comm (/ _)), Qmult_assoc.
    apply Qle_shift_div_l; [exact Hd0|].
    rewrite <- !inject_Z_mult, <- Zle_Qle. nia. }
  destruct (Qle_bool (2 ^ (A - B)) (n # d)) eqn:E.
  - apply Qle_bool_iff in E. split; [exact E | exact F1].
  - split; [exact F2|]. replace (A - B - 1 + 1) with (A - B) by lia.
    apply Qnot_le_lt. intros H. apply Qle_bool_iff in H. congruence.
Qed.

Lemma ilog2_mono (a b : Q) : (0 < a)%Q -> (a <= b)%Q -> ilog2 a <= ilog2 b.
Proof.
  intros Ha Hab.
  pose proof (ilog2_spec a Ha) as [La _].
  pose proof (ilog2_spec b ltac:(lra)) as [_ Ub].
  assert (H : ilog2 a < ilog2 b + 1) by (apply pow2_lt_inv; lra). lia.
Qed.

Section Rounding.
Variables prec emin : Z.
Hypothesis prec_pos : 1 <= prec.

Lemma round_to_eq (x : Q) :
  (round_to prec emin x
   == if Qlt_bool x 0 then - rmag prec emin (Qabs x) else rmag prec emin (Qabs x))%Q.
Proof.
  unfold round_to. fold (expo prec emin (Qabs x)). fold (rmag prec emin (Qabs x)).
  destruct (Qlt_bool x 0); rewrite Qred_correct; reflexivity.
Qed.

Lemma rmag_nonneg (a : Q) : (0 <= a)%Q -> (0 <= rmag prec emin a)%Q.
Proof.
  intros Ha. unfold rmag. pose proof (pow2_pos (expo prec emin a)) as Hp.
  apply Qmult_le_0_compat; [|lra].
  change 0%Q with (inject_Z 0). rewrite <- Zle_Qle.
  apply round_half_even_lower. change (inject_Z 0) with 0%Q.
  apply Qle_shift_div_l; [exact Hp | lra].
Qed.

Lemma rmag_upper (a : Q) (k : Z) :
  (0 < a)%Q -> expo prec emin a <= k -> ilog2 a + 1 <= k -> (rmag prec emin a <= 2 ^ k)%Q.
Proof.
  intros Ha He Hk. unfold rmag.
  pose proof (pow2_pos (expo prec emin a)) as Hp.
  pose proof (ilog2_spec a Ha) as [_ Ua].
  replace k with ((k - expo prec emin a) + expo prec emin a) by lia. rewrite pow2_add.
  apply Qmult_le_compat_r; [|lra].
  rewrite <- (pow2_Z (k - expo prec emin a)) by lia. rewrite <- Zle_Qle.
  apply round_half_even_upper. rewrite (pow2_Z (k - expo prec emin a)) by lia.
  apply Qle_shift_div_r; [exact Hp|]. rewrite <- pow2_add.
  replace (k - expo prec emin a + expo prec emin a) with k by lia.
  apply Qle_trans with (2 ^ (ilog2 a + 1))%Q; [lra | apply pow2_le, Hk].
Qed.

Lemma rmag_lower (b : Q) :
  (0 < b)%Q -> expo prec emin b = ilog2 b - (prec - 1) -> (2 ^ ilog2 b <= rmag prec emin b)%Q.
Proof.
  intros Hb He. unfold rmag.
  pose proof (pow2_pos (expo prec emin b)) as Hp.
  pose proof (ilog2_spec b Hb) as [Lb _].
  replace (ilog2 b) with ((prec - 1) + expo prec emin b) at 1 by lia.
  rewrite pow2_add. apply Qmult_le_compat_r; [|lra].
  rewrite <- (pow2_Z (prec - 1)) by lia. rewrite <- Zle_Qle.
  apply round_half_even_lower. rewrite (pow2_Z (prec - 1)) by lia.
  apply Qle_shift_div_l; [exact Hp|]. rewrite <- pow2_add.
  replace (prec - 1 + expo prec emin b) with (ilog2 b) by lia. exact Lb.
Qed.

Lemma rmag_mono (a b : Q) :
  (0 <= a)%Q -> (a <= b)%Q -> (rmag prec emin a <= rmag prec emin b)%Q.
Proof.
  intros Ha Hab.
  destruct (Qlt_le_dec 0 a) as [Hpos|Hz].
  2:{ assert (E : (a == 0)%Q) by lra.
      apply Qle_trans with 0%Q; [|apply rmag_nonneg; lra].
      unfold rmag.
      assert (R : round_half_even (a / 2 ^ expo prec emin a) = 0).
      { pose proof (pow2_pos (expo prec emin a)) as Hp.
        assert (Z0 : (a / 2 ^ expo prec emin a == 0)%Q).
        { assert (Q0 : Qnum a = 0) by (unfold Qeq in E; simpl in E; lia).
          unfold Qeq, Qdiv, Qmult. cbn [Qnum Qden]. rewrite Q0. reflexivity. }
        apply Z.le_antisymm.
        - apply round_half_even_upper. rewrite Z0. apply Qle_refl.
        - apply round_half_even_lower. rewrite Z0. apply Qle_refl. }
      rewrite R. ring_simplify. apply Qle_refl. }
  pose proof (ilog2_mono a b Hpos Hab) as Hk.
  assert (Hb : (0 < b)%Q) by lra.
  destruct (Z.eq_dec (expo prec emin a) (expo prec emin b)) as [E|E].
  - unfold rmag. rewrite E. pose proof (pow2_pos (expo prec emin b)) as Hp.
    apply Qmult_le_compat_r; [|lra]. rewrite <- Zle_Qle.
    apply round_half_even_mono.
    apply Qmult_le_compat_r; [exact Hab|]. apply Qinv_le_0_compat. lra.
  - assert (Hlt : expo prec emin a < expo prec emin b) by (unfold expo in *; lia).
    assert (Heb : expo prec emin b = ilog2 b - (prec - 1)) by (unfold expo in *; lia).
    apply Qle_trans with (2 ^ ilog2 b)%Q.
    + apply rmag_upper; [exact Hpos | unfold expo in *; lia
                         | unfold expo in *; lia].
    + apply rmag_lower; assumption.
Qed.

Lemma round_to_nonneg (x : Q) : (0 <= x)%Q -> (0 <= round_to prec emin x)%Q.
Proof.
  intros H. rewrite round_to_eq.
  replace (Qlt_bool x 0) with false
    by (symmetry; apply Qlt_bool_false_iff, H).
  apply rmag_nonneg, Qabs_nonneg.
Qed.

Lemma round_to_nonpos (x : Q) : (x <= 0)%Q -> (round_to prec emin x <= 0)%Q.
Proof.
  intros H. rewrite round_to_eq.
  pose proof (rmag_nonneg (Qabs x) (Qabs_nonneg x)) as Hr.
  destruct (Qlt_bool x 0) eqn:E; [lra|].
  apply Qlt_bool_false_iff in E.
  assert (Ex : (x == 0)%Q) by lra.
  assert (Ea : (Qabs x <= 0)%Q) by (rewrite Ex; apply Qle_refl).
  apply Qle_trans with (rmag prec emin 0).
  - apply rmag_mono; [apply Qabs_nonneg | exact Ea].
  - vm_compute. discriminate.
Qed.

Lemma round_to_mono (x y : Q) :
  (x <= y)%Q -> (round_to prec emin x <= round_to prec emin y)%Q.
Proof.
  intros Hxy.
  destruct (Qlt_le_dec x 0) as [Hx|Hx]; destruct (Qlt_le_dec y 0) as [Hy|Hy].
  - rewrite !round_to_eq.
    replace (Qlt_bool x 0) with true by (symmetry; apply Qlt_bool_iff, Hx).
    replace (Qlt_bool y 0) with true by (symmetry; apply Qlt_bool_iff, Hy).
    apply Qopp_le_compat. apply rmag_mono; [apply Qabs_nonneg|].
    rewrite !Qabs_neg by lra. lra.
  - apply Qle_trans with 0%Q;
      [apply round_to_nonpos; lra | apply round_to_nonneg, Hy].
  - lra.
  - rewrite !round_to_eq.
    replace (Qlt_bool x 0) with false
      by (symmetry; apply Qlt_bool_false_iff, Hx).
    replace (Qlt_bool y 0) with false
      by (symmetry; apply Qlt_bool_false_iff, Hy).
    apply rmag_mono; [apply Qabs_nonneg|]. rewrite !Qabs_pos by lra.
    exact Hxy.
Qed.
End Rounding.

Lemma ilog2_unique (a b : Q) :
  (0 < a)%Q -> (a == b)%Q -> ilog2 a = ilog2 b.
Proof.
  intros Ha E. assert (Hb : (0 < b)%Q) by (rewrite <- E; exact Ha).
  apply Z.le_antisymm; apply ilog2_mono; try assumption;
    rewrite E; apply Qle_refl.
Qed.

Lemma round_to_comp (prec emin : Z) (x y : Q) :
  (x == y)%Q -> round_to prec emin x = round_to prec emin y.
Proof.
  intros E. unfold round_to.
  rewrite (Qlt_bool_comp x y 0 0 E (Qeq_refl 0)).
  assert (Ea : (Qabs x == Qabs y)%Q) by (rewrite E; reflexivity).
  set (a := Qabs x) in *. set (b := Qabs y) in *.
  assert (R : Qred (inject_Z (round_half_even
                                (a / 2 ^ Z.max (ilog2 a - (prec - 1)) emin))
                    * 2 ^ Z.max (ilog2 a - (prec - 1)) emin)
              = Qred (inject_Z (round_half_even
                                  (b / 2 ^ Z.max (ilog2 b - (prec - 1)) emin))
                      * 2 ^ Z.max (ilog2 b - (prec - 1)) emin)).
  { apply Qred_complete.
    destruct (Qlt_le_dec 0 a) as [Hpos|Hz].
    - rewrite (ilog2_unique a b Hpos Ea).
      rewrite (round_half_even_comp
                 (a / 2 ^ Z.max (ilog2 b - (prec - 1)) emin)
                 (b / 2 ^ Z.max (ilog2 b - (prec - 1)) emin));
        [reflexivity|].
      unfold Qdiv. rewrite Ea. reflexivity.
    - assert (Za : forall c e, (c == 0)%Q ->
                (inject_Z (round_half_even (c / 2 ^ e)) * 2 ^ e == 0)%Q).
      { intros c e Hc.
        rewrite (round_half_even_comp (c / 2 ^ e) (inject_Z 0)).
        - rewrite round_half_even_Z. ring.
        - assert (Q0 : Qnum c = 0) by (unfold Qeq in Hc; simpl in Hc; lia).
          unfold Qeq, Qdiv, Qmult. cbn [Qnum Qden]. rewrite Q0. reflexivity. }
      pose proof (Qabs_nonneg x) as Hx. fold a in Hx.
      assert (A0 : (a == 0)%Q) by lra.
      assert (B0 : (b == 0)%Q) by (rewrite <- Ea; exact A0).
      rewrite (Za a _ A0), (Za b _ B0). reflexivity. }
  rewrite R. reflexivity.
Qed.

Lemma Qabs_eq (x : Q) : (0 <= x)%Q -> Qabs x = x.
Proof.
  destruct x as [n d]. unfold Qle, Qabs. simpl. intros H.
  f_equal. apply Z.abs_eq. lia.
Qed.

Section RoundingBounds.
Variables prec emin : Z.
Hypothesis prec_pos : 1 <= prec.
Hypothesis emin_neg : emin <= 0.

(** Integers below [2^prec] are representable. *)
Lemma round_to_int (k : Z) :
  0 <= k < 2 ^ prec -> round_to prec emin (inject_Z k) = inject_Z k.
Proof.
  intros [H0 H1].
  assert (Rk : Qred (inject_Z k) = inject_Z k).
  { apply Qcanon.Qred_identity. simpl. apply Z.gcd_1_r. }
  rewrite <- Rk at 2. unfold round_to.
  replace (Qlt_bool (inject_Z k) 0) with false
    by (symmetry; apply Qlt_bool_false_iff, inject_Z_nonneg, H0).
  rewrite (Qabs_eq (inject_Z k)) by (apply inject_Z_nonneg, H0).
  apply Qred_complete.
  set (e := Z.max (ilog2 (inject_Z k) - (prec - 1)) emin).
  assert (He : e <= 0).
  { destruct (Z.eq_dec k 0) as [->|Hk]; [subst e; vm_compute ilog2; lia|].
    assert (Hpos : (0 < inject_Z k)%Q).
    { change 0%Q with (inject_Z 0). rewrite <- Zlt_Qlt. lia. }
    pose proof (ilog2_spec _ Hpos) as [L _].
    assert (Hlt : (2 ^ ilog2 (inject_Z k) < 2 ^ prec)%Q).
    { apply Qle_lt_trans with (inject_Z k); [exact L|].
      rewrite <- (pow2_Z prec) by lia. rewrite <- Zlt_Qlt. exact H1. }
    apply pow2_lt_inv in Hlt. subst e. lia. }
  assert (Ek : (inject_Z k / 2 ^ e == inject_Z (k * 2 ^ (- e)))%Q).
  { rewrite inject_Z_mult, (pow2_Z (- e)) by lia.
    rewrite Qpower_opp. reflexivity. }
  rewrite (round_half_even_comp _ _ Ek), round_half_even_Z.
  rewrite inject_Z_mult, (pow2_Z (- e)) by lia.
  rewrite <- Qmult_assoc, <- pow2_add.
  replace (- e + e) with 0 by lia. change (2 ^ 0)%Q with 1%Q. ring.
Qed.

(** In the normal range the rounded value exceeds the exact one by at most
    the relative error [2^-prec]. *)
Lemma round_to_upper (x : Q) :
  (2 ^ (emin + prec - 1) <= x)%Q ->
  (round_to prec emin x <= x * (1 + 2 ^ (- prec)))%Q.
Proof.
  intros Hx. pose proof (pow2_pos (emin + prec - 1)) as Hp0.
  assert (Hpos : (0 < x)%Q) by lra.
  rewrite round_to_eq.
  replace (Qlt_bool x 0) with false
    by (symmetry; apply Qlt_bool_false_iff; lra).
  rewrite (Qabs_eq x) by lra.
  pose proof (ilog2_spec _ Hpos) as [L U].
  assert (Hk : emin + prec - 1 <= ilog2 x).
  { assert (H : (2 ^ (emin + prec - 1) < 2 ^ (ilog2 x + 1))%Q) by lra.
    apply pow2_lt_inv in H. lia. }
  unfold rmag. set (e := expo prec emin x).
  assert (He : e = ilog2 x - (prec - 1)) by (subst e; unfold expo; lia).
  pose proof (pow2_pos e) as Hpe.
  pose proof (round_half_even_nearest (x / 2 ^ e)) as Hn.
  apply Qabs_Qle_condition in Hn as [Hn _].
  assert (Hr : (inject_Z (round_half_even (x / 2 ^ e))
                <= x / 2 ^ e + (1 # 2))%Q) by lra.
  apply Qle_trans with ((x / 2 ^ e + (1 # 2)) * 2 ^ e)%Q.
  { apply Qmult_le_compat_r; [exact Hr | lra]. }
  assert (E1 : ((x / 2 ^ e + (1 # 2)) * 2 ^ e == x + (1 # 2) * 2 ^ e)%Q).
  { field. intros H0. rewrite H0 in Hpe. exact (Qlt_irrefl _ Hpe). }
  assert (E2 : (2 ^ e == 2 ^ ilog2 x * 2 ^ (- prec) * 2)%Q).
  { rewrite He. replace (ilog2 x - (prec - 1))
      with (ilog2 x + (- prec + 1)) by lia.
    rewrite pow2_add, (pow2_add (- prec) 1). change (2 ^ 1)%Q with 2%Q.
    ring. }
  pose proof (pow2_pos (- prec)) as Hpp.
  assert (Hm : (2 ^ ilog2 x * 2 ^ (- prec) <= x * 2 ^ (- prec))%Q)
    by (apply Qmult_le_compat_r; [exact L | lra]).
  assert (E3 : (x * (1 + 2 ^ (- prec)) == x + x * 2 ^ (- prec))%Q) by ring.
  rewrite E1, E3.
  apply Qle_trans with (x + 2 ^ ilog2 x * 2 ^ (- prec))%Q; [|lra].
  apply Qplus_le_r. rewrite E2. 
  assert (E4 : ((1 # 2) * (2 ^ ilog2 x * 2 ^ (- prec) * 2)
                == 2 ^ ilog2 x * 2 ^ (- prec))%Q) by ring.
  rewrite E4. apply Qle_refl.
Qed.
(** ... and falls short of it by at most the same relative error. *)
Lemma round_to_lower (x : Q) :
  (2 ^ (emin + prec - 1) <= x)%Q ->
  (x * (1 - 2 ^ (- prec)) <= round_to prec emin x)%Q.
Proof.
  intros Hx. pose proof (pow2_pos (emin + prec - 1)) as Hp0.
  assert (Hpos : (0 < x)%Q) by lra.
  rewrite round_to_eq.
  replace (Qlt_bool x 0) with false
    by (symmetry; apply Qlt_bool_false_iff; lra).
  rewrite (Qabs_eq x) by lra.
  pose proof (ilog2_spec _ Hpos) as [L U].
  assert (Hk : emin + prec - 1 <= ilog2 x).
  { assert (H : (2 ^ (emin + prec - 1) < 2 ^ (ilog2 x + 1))%Q) by lra.
    apply pow2_lt_inv in H. lia. }
  unfold rmag. set (e := expo prec emin x).
  assert (He : e = ilog2 x - (prec - 1)) by (subst e; unfold expo; lia).
  pose proof (pow2_pos e) as Hpe.
  pose proof (round_half_even_nearest (x / 2 ^ e)) as Hn.
  apply Qabs_Qle_condition in Hn as [_ Hn].
  assert (Hr : (x / 2 ^ e - (1 # 2)
                <= inject_Z (round_half_even (x / 2 ^ e)))%Q) by lra.
  apply Qle_trans with ((x / 2 ^ e - (1 # 2)) * 2 ^ e)%Q.
  2:{ apply Qmult_le_compat_r; [exact Hr | lra]. }
  assert (E1 : ((x / 2 ^ e - (1 # 2)) * 2 ^ e == x - (1 # 2) * 2 ^ e)%Q).
  { field. intros H0. rewrite H0 in Hpe. exact (Qlt_irrefl _ Hpe). }
  assert (E2 : (2 ^ e == 2 ^ ilog2 x * 2 ^ (- prec) * 2)%Q).
  { rewrite He. replace (ilog2 x - (prec - 1))
      with (ilog2 x + (- prec + 1)) by lia.
    rewrite pow2_add, (pow2_add (- prec) 1). change (2 ^ 1)%Q with 2%Q.
    ring. }
  pose proof (pow2_pos (- prec)) as Hpp.
  assert (Hm : (2 ^ ilog2 x * 2 ^ (- prec) <= x * 2 ^ (- prec))%Q)
    by (apply Qmult_le_compat_r; [exact L | lra]).
  assert (E3 : (x * (1 - 2 ^ (- prec)) == x - x * 2 ^ (- prec))%Q) by ring.
  rewrite E1, E3.
  apply Qle_trans with (x - 2 ^ ilog2 x * 2 ^ (- prec))%Q; [lra|].
  rewrite E2.
  assert (E4 : ((1 # 2) * (2 ^ ilog2 x * 2 ^ (- prec) * 2)
                == 2 ^ ilog2 x * 2 ^ (- prec))%Q) by ring.
  rewrite E4. apply Qle_refl.
Qed.
End RoundingBounds.

(** ** binary64 and binary32 *)

Lemma fl64_nonneg (x : Q) : (0 <= x)%Q -> (0 <= fl64 x)%Q.
Proof. apply round_to_nonneg; lia. Qed.

Lemma fl64_mono (x y : Q) : (x <= y)%Q -> (fl64 x <= fl64 y)%Q.
Proof. apply round_to_mono; lia. Qed.

Lemma fl64_comp (x y : Q) : (x == y)%Q -> fl64 x = fl64 y.
Proof. apply round_to_comp. Qed.

Lemma fl64_int (k : Z) : 0 <= k < 2 ^ 53 -> fl64 (inject_Z k) = inject_Z k.
Proof. apply round_to_int; lia. Qed.

Lemma fl64_upper (x : Q) :
  (2 ^ (-1022) <= x)%Q -> (fl64 x <= x * (1 + 2 ^ (-53)))%Q.
Proof. apply (round_to_upper 53 (-1074)); lia. Qed.

(** The relative error of a binary64 operation in the normal range. *)
Lemma fl64_error (x : Q) :
  (2 ^ (-1022) <= x)%Q -> (Qabs (fl64 x - x) <= x * 2 ^ (-53))%Q.
Proof.
  intros Hx.
  assert (U : (fl64 x <= x * (1 + 2 ^ (-53)))%Q) by (apply fl64_upper, Hx).
  assert (L : (x * (1 - 2 ^ (-53)) <= fl64 x)%Q)
    by (apply (round_to_lower 53 (-1074)); (lia || exact Hx)).
  apply Qabs_Qle_condition.
  assert (E1 : (x * (1 + 2 ^ (-53)) == x + x * 2 ^ (-53))%Q) by ring.
  assert (E2 : (x * (1 - 2 ^ (-53)) == x - x * 2 ^ (-53))%Q) by ring.
  rewrite E1 in U. rewrite E2 in L. split; lra.
Qed.

Lemma fl32_nonneg (x : Q) : (0 <= x)%Q -> (0 <= fl32 x)%Q.
Proof. apply round_to_nonneg; lia. Qed.

Lemma fl32_mono (x y : Q) : (x <= y)%Q -> (fl32 x <= fl32 y)%Q.
Proof. apply round_to_mono; lia. Qed.


Lemma fl32_int (k : Z) : 0 <= k < 2 ^ 24 -> fl32 (inject_Z k) = inject_Z k.
Proof. apply round_to_int; lia. Qed.


Lemma fadd_nonneg (x y : Q) : (0 <= x)%Q -> (0 <= y)%Q -> (0 <= fadd x y)%Q.
Proof. intros. apply fl64_nonneg. lra. Qed.

Lemma fmul_nonneg (x y : Q) : (0 <= x)%Q -> (0 <= y)%Q -> (0 <= fmul x y)%Q.
Proof. intros. apply fl64_nonneg. apply Qmult_le_0_compat; assumption. Qed.

Lemma fdiv_nonneg (x y : Q) : (0 <= x)%Q -> (0 <= y)%Q -> (0 <= fdiv x y)%Q.
Proof. intros. apply fl64_nonneg. apply Qdiv_nonneg; assumption. Qed.

Lemma fadd_mono (x x' y y' : Q) :
  (x <= x')%Q -> (y <= y')%Q -> (fadd x y <= fadd x' y')%Q.
Proof. intros. apply fl64_mono. lra. Qed.

Lemma fmul_mono (x x' y y' : Q) :
  (0 <= x)%Q -> (x <= x')%Q -> (0 <= y)%Q -> (y <= y')%Q ->
  (fmul x y <= fmul x' y')%Q.
Proof.
  intros. apply fl64_mono.
  apply Qle_trans with (x * y')%Q.
  - rewrite !(Qmult_comm x). apply Qmult_le_compat_r; assumption.
  - apply Qmult_le_compat_r; [assumption | lra].
Qed.

(** ** Sums and means of floats *)

Lemma fold_fadd_nonneg (l : list Q) (acc : Q) :
  (0 <= acc)%Q -> Forall (fun x => (0 <= x)%Q) l ->
  (0 <= fold_left fadd l acc)%Q.
Proof.
  intros Hacc Hl. revert acc Hacc.
  induction Hl as [|x l Hx _ IH]; intros acc Hacc; [exact Hacc|].
  simpl. apply IH. apply fadd_nonneg; assumption.
Qed.

Lemma zip_fadd_nonneg (r b : list Q) :
  Forall (fun x => (0 <= x)%Q) r -> Forall (fun x => (0 <= x)%Q) b ->
  Forall (fun x => (0 <= x)%Q) (zip_with fadd r b).
Proof.
  intros Hr. revert b. induction Hr as [|x r Hx _ IH]; intros b Hb;
    [constructor|].
  destruct Hb as [|y b Hy Hb]; [constructor|]. simpl. constructor.
  - apply fadd_nonneg; assumption.
  - apply IH, Hb.
Qed.

Lemma add_blocks_nonneg (k : nat) (r b : list Q) :
  Forall (fun x => (0 <= x)%Q) r -> Forall (fun x => (0 <= x)%Q) b ->
  Forall (fun x => (0 <= x)%Q) (add_blocks k r b).
Proof.
  revert r b. induction k as [|k IH]; intros r b Hr Hb; [exact Hr|].
  simpl. apply IH; [|apply Forall_drop, Hb].
  apply zip_fadd_nonneg; [exact Hr | apply Forall_take, Hb].
Qed.

Lemma nth_nonneg (i : nat) (r : list Q) :
  Forall (fun x => (0 <= x)%Q) r -> (0 <= nth i r 0)%Q.
Proof.
  intros Hr. revert i. induction Hr as [|x r Hx _ IH]; intros [|i]; simpl;
    try apply Qle_refl; [exact Hx | apply IH].
Qed.

Lemma block_sum_nonneg (a : list Q) :
  Forall (fun x => (0 <= x)%Q) a -> (0 <= block_sum a)%Q.
Proof.
  intros Ha. unfold block_sum. apply fold_fadd_nonneg;
    [|apply Forall_drop, Ha].
  assert (Hr : Forall (fun x => (0 <= x)%Q)
                 (add_blocks
                    (length (take (length a - length a mod 8) a) / 8 - 1)
                    (take 8 (take (length a - length a mod 8) a))
                    (drop 8 (take (length a - length a mod 8) a)))).
  { apply add_blocks_nonneg;
      [apply Forall_take, Forall_take, Ha
      | apply Forall_drop, Forall_take, Ha]. }
  repeat apply fadd_nonneg; apply nth_nonneg, Hr.
Qed.

Lemma pairwise_sum_nonneg (fuel : nat) (a : list Q) :
  Forall (fun x => (0 <= x)%Q) a -> (0 <= pairwise_sum fuel a)%Q.
Proof.
  revert a. induction fuel as [|fuel IH]; intros a Ha; simpl.
  - destruct (length a <? 8)%nat;
      [apply fold_fadd_nonneg; [apply Qle_refl | exact Ha]|].
    destruct (length a <=? 128)%nat; apply block_sum_nonneg, Ha.
  - destruct (length a <? 8)%nat;
      [apply fold_fadd_nonneg; [apply Qle_refl | exact Ha]|].
    destruct (length a <=? 128)%nat; [apply block_sum_nonneg, Ha|].
    apply fadd_nonneg; apply IH; [apply Forall_take | apply Forall_drop];
      exact Ha.
Qed.

Lemma np_mean_nonneg (l : list Q) :
  Forall (fun x => (0 <= x)%Q) l -> (0 <= np_mean l)%Q.
Proof.
  intros H. unfold np_mean. apply fdiv_nonneg.
  - apply pairwise_sum_nonneg, H.
  - apply fl64_nonneg, inject_Z_nonneg. lia.
Qed.

(** ** The quantities of [extract_image_features] *)

Lemma img_hash_range (a : ndarray) :
  (0 <= img_hash a <= fl64 (999 # 1000))%Q.
Proof.
  unfold img_hash, fdiv.
  pose proof (Z.mod_pos_bound (np_sum a) 1000 ltac:(lia)) as [H0 H1].
  set (k := np_sum a mod 1000) in *.
  assert (Hk0 : (0 <= inject_Z k)%Q) by (apply inject_Z_nonneg, H0).
  assert (Hk1 : (inject_Z k <= 999)%Q).
  { change 999%Q with (inject_Z 999). rewrite <- Zle_Qle. lia. }
  split.
  - apply fl64_nonneg, Qdiv_nonneg; [exact Hk0 | discriminate].
  - apply fl64_mono. apply Qle_shift_div_r; [reflexivity|].
    apply Qle_trans with 999%Q; [exact Hk1 | discriminate].
Qed.

Lemma count_factor_range (a : ndarray) :
  (fl64 (8 # 10) <= count_factor a <= count_factor_max)%Q.
Proof.
  pose proof (img_hash_range a) as [H0 H1]. unfold count_factor. split.
  - apply Qle_trans with (fadd (fl64 (8 # 10)) (fmul (fl64 (4 # 10)) 0));
      [vm_compute; discriminate|].
    apply fadd_mono; [apply Qle_refl|].
    apply fmul_mono; try assumption; try apply Qle_refl; discriminate.
  - change count_factor_max
      with (fadd (fl64 (8 # 10)) (fmul (fl64 (4 # 10)) (fl64 (999 # 1000)))).
    apply fadd_mono; [apply Qle_refl|].
    apply fmul_mono; try assumption; try apply Qle_refl; discriminate.
Qed.

Lemma area_factor_range (a : ndarray) :
  (fl64 (7 # 10) <= area_factor a <= area_factor_max)%Q.
Proof.
  pose proof (img_hash_range a) as [H0 H1]. unfold area_factor. split.
  - apply Qle_trans with (fadd (fl64 (7 # 10)) (fmul (fl64 (6 # 10)) 0));
      [vm_compute; discriminate|].
    apply fadd_mono; [apply Qle_refl|].
    apply fmul_mono; try assumption; try apply Qle_refl; discriminate.
  - change area_factor_max
      with (fadd (fl64 (7 # 10)) (fmul (fl64 (6 # 10)) (fl64 (999 # 1000)))).
    apply fadd_mono; [apply Qle_refl|].
    apply fmul_mono; try assumption; try apply Qle_refl; discriminate.
Qed.

Lemma of_int_nonneg (z : Z) : 0 <= z -> (0 <= of_int z)%Q.
Proof. intros H. apply fl64_nonneg, inject_Z_nonneg, H. Qed.

Lemma min_area_nonneg (w h : Z) : 1 <= w -> 1 <= h -> (0 <= min_area w h)%Q.
Proof.
  intros Hw Hh. unfold min_area. apply fmul_nonneg.
  - apply of_int_nonneg. nia.
  - vm_compute. discriminate.
Qed.

Lemma significant_contours_area (cv : OpenCV) (w h : Z) (a : ndarray) :
  Forall (fun c => (min_area w h < contourArea cv c)%Q)
         (significant_contours cv w h a).
Proof.
  apply Forall_forall. intros c Hc. unfold significant_contours in Hc.
  apply list_elem_of_filter in Hc as [Hc _].
  apply Is_true_true in Hc. apply Qlt_bool_iff in Hc. exact Hc.
Qed.

Lemma num_objects_nonneg (cv : OpenCV) (w h : Z) (a : ndarray) :
  0 <= num_objects cv w h a.
Proof. unfold num_objects. lia. Qed.

Lemma mean_area_nonneg (cv : OpenCV) (w h : Z) (a : ndarray) :
  1 <= w -> 1 <= h -> (0 <= mean_area cv w h a)%Q.
Proof.
  intros Hw Hh. unfold mean_area.
  destruct (0 <? _); [|vm_compute; discriminate].
  apply fdiv_nonneg; [|apply of_int_nonneg; nia].
  apply np_mean_nonneg. apply Forall_map.
  eapply Forall_impl; [apply significant_contours_area|].
  intros c Hc. simpl. apply Qlt_le_weak.
  apply Qle_lt_trans with (min_area w h);
    [apply min_area_nonneg; assumption | exact Hc].
Qed.

(** The perturbed count: [int(n * factor)] stays between [floor(0.8 n)] and
    [floor(1.2 n)]. *)
Lemma count_mod_bounds (n : Z) (a : ndarray) :
  0 <= n < 2 ^ 52 ->
  4 * n / 5 <= py_int (fmul (of_int n) (count_factor a)) <= 6 * n / 5.
Proof.
  intros [Hn0 Hn1]. pose proof (count_factor_range a) as [F0 F1].
  assert (HN : of_int n = inject_Z n) by (apply fl64_int; lia).
  rewrite HN.
  assert (Hf8 : (8 # 10 <= fl64 (8 # 10))%Q) by (vm_compute; discriminate).
  assert (HnQ : (0 <= inject_Z n)%Q) by (apply inject_Z_nonneg, Hn0).
  set (F := count_factor a) in *.
  assert (Hprod0 : (0 <= inject_Z n * F)%Q)
    by (apply Qmult_le_0_compat; [exact HnQ | lra]).
  assert (Hx0 : (0 <= fmul (inject_Z n) F)%Q) by (apply fl64_nonneg, Hprod0).
  rewrite (py_int_nonneg _ Hx0).
  assert (HnF0 : ((8 # 10) * inject_Z n <= inject_Z n * F)%Q).
  { rewrite (Qmult_comm (8 # 10)). rewrite !(Qmult_comm (inject_Z n)).
    apply Qmult_le_compat_r; [lra | exact HnQ]. }
  assert (HnF1 : (inject_Z n * F <= inject_Z n * count_factor_max)%Q).
  { rewrite !(Qmult_comm (inject_Z n)).
    apply Qmult_le_compat_r; [exact F1 | exact HnQ]. }
  split.
  - apply Qfloor_lower.
    rewrite <- (fl64_int (4 * n / 5))
      by (split; [apply Z.div_pos; lia
                 | apply Z.div_lt_upper_bound; lia]).
    apply fl64_mono. apply Qle_trans with ((8 # 10) * inject_Z n)%Q;
      [|exact HnF0].
    assert (H5 : (5 * inject_Z (4 * n / 5) <= 4 * inject_Z n)%Q).
    { change 5%Q with (inject_Z 5). change 4%Q with (inject_Z 4).
      rewrite <- !inject_Z_mult. rewrite <- Zle_Qle.
      apply Z.mul_div_le. lia. }
    lra.
  - apply Z.div_le_lower_bound; [lia|].
    pose proof (Qfloor_le (fmul (inject_Z n) F)) as Hf.
    assert (Hx : (fmul (inject_Z n) F <= (12 # 10) * inject_Z n)%Q).
    { destruct (Z.eq_dec n 0) as [->|Hn].
      - unfold fmul. rewrite (fl64_comp (inject_Z 0 * F) 0) by ring.
        vm_compute. discriminate.
      - assert (Hn1' : (1 <= inject_Z n)%Q).
        { change 1%Q with (inject_Z 1). rewrite <- Zle_Qle. lia. }
        assert (Hnorm : (2 ^ (-1022) <= inject_Z n * F)%Q).
        { apply Qle_trans with ((8 # 10) * inject_Z n)%Q; [|exact HnF0].
          apply Qle_trans with (8 # 10)%Q; [vm_compute; discriminate | lra]. }
        apply Qle_trans with (inject_Z n * F * (1 + 2 ^ (-53)))%Q;
          [apply fl64_upper, Hnorm|].
        apply Qle_trans
          with (inject_Z n * count_factor_max * (1 + 2 ^ (-53)))%Q.
        { apply Qmult_le_compat_r; [exact HnF1 | vm_compute; discriminate]. }
        assert (Hc : (count_factor_max * (1 + 2 ^ (-53)) <= 12 # 10)%Q)
          by (vm_compute; discriminate).
        rewrite <- Qmult_assoc. rewrite (Qmult_comm (12 # 10)).
        rewrite !(Qmult_comm (inject_Z n)).
        apply Qmult_le_compat_r; [exact Hc | exact HnQ]. }
    assert (H5 : (5 * inject_Z (Qfloor (fmul (inject_Z n) F))
                  <= 6 * inject_Z n)%Q) by lra.
    change 5%Q with (inject_Z 5) in H5. change 6%Q with (inject_Z 6) in H5.
    rewrite <- !inject_Z_mult in H5. rewrite <- Zle_Qle in H5. exact H5.
Qed.

(** ** Properties of [extract_image_features] *)

Lemma ratio_normal (w h : Z) :
  1 <= w < 2 ^ 1022 -> 1 <= h -> (2 ^ (-1022) <= inject_Z h / inject_Z w)%Q.
Proof.
  intros [Hw0 Hw1] Hh.
  assert (Hwq : (0 < inject_Z w)%Q).
  { change 0%Q with (inject_Z 0). rewrite <- Zlt_Qlt. lia. }
  apply Qle_shift_div_l; [exact Hwq|].
  apply Qle_trans with (2 ^ (-1022) * 2 ^ 1022)%Q.
  - apply Qmult_le_l; [apply pow2_pos|].
    rewrite <- (pow2_Z 1022) by lia. rewrite <- Zle_Qle. lia.
  - rewrite <- pow2_add. change (2 ^ (-1022 + 1022))%Q with (inject_Z 1).
    rewrite <- Zle_Qle. exact Hh.
Qed.

(** C1. For an image of width and height at least 1, the extraction returns
    normally and the four components obey: [num_objects_mod >= 1],
    [0 <= mean_area_mod <= 1], [1 <= categories_mod <= 10], and [ratio_hw]
    is the float quotient [h / w] itself, unclamped: the binary64 number
    nearest to the exact quotient, within a relative [2^-53] of it. *)
Theorem extract_image_features_ranges (cv : OpenCV) (image : Image) (w h : Z) :
  im_size image = (w, h) -> 1 <= w -> 1 <= h ->
  exists f, extract_image_features cv image = Ok f
    /\ 1 <= num_objects_mod f
    /\ (0 <= mean_area_mod f <= 1)%Q
    /\ 1 <= categories_mod f <= 10
    /\ ratio_hw f = fl64 (inject_Z h / inject_Z w)
    /\ (w < 2 ^ 1022 ->
        (Qabs (ratio_hw f - inject_Z h / inject_Z w)
         <= inject_Z h / inject_Z w * 2 ^ (-53))%Q).
Proof.
  intros Hsz Hw Hh. unfold extract_image_features. rewrite Hsz.
  destruct (Z.eqb_spec w 0) as [->|_]; [lia|].
  destruct (Z.eqb_spec h 0) as [->|_]; [lia|].
  eexists. split; [reflexivity|]. cbn [num_objects_mod mean_area_mod
    categories_mod ratio_hw].
  rewrite !py_max_Z_max, py_min_Z_min.
  split; [lia|]. split; [|split; [lia | split; [reflexivity|]]].
  - apply py_min_Q_bounds. apply fmul_nonneg.
    + apply mean_area_nonneg; assumption.
    + pose proof (area_factor_range (im_array image)) as [H0 _].
      apply Qle_trans with (fl64 (7 # 10));
        [vm_compute; discriminate | exact H0].
  - intros Hw1. apply fl64_error. apply ratio_normal; lia.
Qed.

Lemma extract_image_features_ranges_witness :
  exists f, extract_image_features Cv2.reference red_1 = Ok f
    /\ 1 <= num_objects_mod f
    /\ (0 <= mean_area_mod f <= 1)%Q
    /\ 1 <= categories_mod f <= 10
    /\ ratio_hw f = fl64 (inject_Z 1 / inject_Z 1)
    /\ (1 < 2 ^ 1022 ->
        (Qabs (ratio_hw f - inject_Z 1 / inject_Z 1)
         <= inject_Z 1 / inject_Z 1 * 2 ^ (-53))%Q).
Proof.
  apply (extract_image_features_ranges Cv2.reference red_1 1 1);
    [reflexivity | lia | lia].
Defined.

(** C2, as stated, fails: the code truncates with [int] where the claim
    rounds.  On the uniform red 3x3 image the pixel sum is 2295, so
    [img_hash = 0.295], the saturation is 1 and the gradient is 0; the
    category proxy is [5.59], which [int] takes to 5 and rounding to 6. *)
Lemma perturbation_rounds_counterexample :
  exists f, extract_image_features Cv2.reference red_3 = Ok f
    /\ (55 # 10 < category_proxy Cv2.reference (im_array red_3) < 56 # 10)%Q
    /\ categories_mod f = 5
    /\ categories_mod (spec_features Cv2.reference red_3) = 6
    /\ f <> spec_features Cv2.reference red_3.
Proof.
  eexists. split; [reflexivity|].
  split; [split; vm_compute; reflexivity|].
  split; [vm_compute; reflexivity|].
  split; [vm_compute; reflexivity|].
  intros H. apply (f_equal categories_mod) in H. vm_compute in H.
  discriminate H.
Qed.

(** C2, amended: for an image of non-zero width and height the perturbed
    features are, in float64 arithmetic,
    [num_objects_mod = max(1, int(num_objects * (0.8 + 0.4*img_hash)))],
    [mean_area_mod = min(mean_area * (0.7 + 0.6*img_hash), 1.0)] and
    [categories_mod = max(1, min(int(5*saturation + 3*detail_level
    + 2*img_hash), 10))], where [int] truncates toward zero. *)
Theorem extract_image_features_perturbation
    (cv : OpenCV) (image : Image) (w h : Z) :
  im_size image = (w, h) -> w <> 0 -> h <> 0 ->
  exists f, extract_image_features cv image = Ok f
    /\ num_objects_mod f
       = Z.max 1 (py_int (fmul (of_int (num_objects cv w h (im_array image)))
                               (fadd (fl64 (8 # 10))
                                     (fmul (fl64 (4 # 10))
                                           (img_hash (im_array image))))))
    /\ (mean_area_mod f
        == Qmin (fmul (mean_area cv w h (im_array image))
                      (fadd (fl64 (7 # 10))
                            (fmul (fl64 (6 # 10))
                                  (img_hash (im_array image))))) 1)%Q
    /\ categories_mod f
       = Z.max 1 (Z.min (py_int
                           (fadd (fadd (fmul 5 (saturation cv (im_array image)))
                                       (fmul 3 (detail_level cv
                                                  (im_array image))))
                                 (fmul 2 (img_hash (im_array image))))) 10).
Proof.
  intros Hsz Hw Hh. unfold extract_image_features. rewrite Hsz.
  destruct (Z.eqb_spec w 0) as [->|_]; [lia|].
  destruct (Z.eqb_spec h 0) as [->|_]; [lia|].
  eexists. split; [reflexivity|].
  cbn [num_objects_mod mean_area_mod categories_mod].
  rewrite !py_max_Z_max, py_min_Z_min.
  split; [reflexivity|]. split; [apply py_min_Q_min|].
  unfold category_proxy. lia.
Qed.

Lemma extract_image_features_perturbation_witness :
  exists f, extract_image_features Cv2.reference red_1 = Ok f
    /\ num_objects_mod f
       = Z.max 1 (py_int (fmul (of_int (num_objects Cv2.reference 1 1
                                          (im_array red_1)))
                               (fadd (fl64 (8 # 10))
                                     (fmul (fl64 (4 # 10))
                                           (img_hash (im_array red_1))))))
    /\ (mean_area_mod f
        == Qmin (fmul (mean_area Cv2.reference 1 1 (im_array red_1))
                      (fadd (fl64 (7 # 10))
                            (fmul (fl64 (6 # 10))
                                  (img_hash (im_array red_1))))) 1)%Q
    /\ categories_mod f
       = Z.max 1 (Z.min (py_int
                           (fadd (fadd (fmul 5 (saturation Cv2.reference
                                                  (im_array red_1)))
                                       (fmul 3 (detail_level Cv2.reference
                                                  (im_array red_1))))
                                 (fmul 2 (img_hash (im_array red_1))))) 10).
Proof.
  apply (extract_image_features_perturbation Cv2.reference red_1 1 1);
    [reflexivity | lia | lia].
Defined.

(** ** The reference OpenCV behaviour on uniform planes *)

Lemma map_replicate {A B} (f : A -> B) (n : nat) (x : A) :
  map f (replicate n x) = replicate n (f x).
Proof. induction n as [|n IH]; simpl; [reflexivity | rewrite IH; reflexivity]. Qed.

Lemma concat_replicate {A} (h w : nat) (x : A) :
  concat (replicate h (replicate w x)) = replicate (h * w) x.
Proof.
  induction h as [|h IH]; simpl; [reflexivity|].
  rewrite IH, replicate_add. reflexivity.
Qed.

Lemma filter_eq_replicate (n : nat) (g i : Z) :
  filter (fun v => v = i) (replicate n g)
  = if decide (g = i) then replicate n g else [].
Proof.
  induction n as [|n IH]; simpl; [destruct (decide (g = i)); reflexivity|].
  rewrite filter_cons, IH. destruct (decide (g = i)); reflexivity.
Qed.

Lemma histogram_uniform (h w : nat) (g : Z) :
  Cv2.histogram (replicate h (replicate w g))
  = map (fun i => if decide (g = i) then Z.of_nat (h * w) else 0)
        (map Z.of_nat (seq 0 256)).
Proof.
  unfold Cv2.histogram. rewrite concat_replicate. apply map_ext. intros i.
  rewrite filter_eq_replicate. destruct (decide (g = i)); simpl;
    [rewrite length_replicate|]; reflexivity.
Qed.

Lemma sum_indicator (g N : Z) (a n : nat) :
  sum_Z (map (fun i => if decide (g = i) then N else 0)
             (map Z.of_nat (seq a n)))
  = if decide (Z.of_nat a <= g < Z.of_nat (a + n)) then N else 0.
Proof.
  revert a. induction n as [|n IH]; intros a; simpl.
  - destruct (decide _); [lia | reflexivity].
  - rewrite IH. destruct (decide (g = Z.of_nat a));
      repeat destruct (decide _); lia.
Qed.

Lemma zip_map_self {A B} (f : A -> B) (l : list A) :
  zip l (map f l) = map (fun i => (i, f i)) l.
Proof. induction l as [|x l IH]; simpl; [|rewrite IH]; reflexivity. Qed.

Lemma Qred_inject_Z (k : Z) : Qred (inject_Z k) = inject_Z k.
Proof. apply Qcanon.Qred_identity. simpl. apply Z.gcd_1_r. Qed.

(** On a plane where every bin weight is a whole number every level is
    skipped: the class probabilities are 0 or 1. *)
Lemma otsu_fold_skips (scale mu : Q) (bins : list (Z * Z))
    (st : Cv2.otsu_state) :
  Forall (fun ih : Z * Z =>
            exists j : Z, (inject_Z (snd ih) * scale == inject_Z j)%Q) bins ->
  (exists k : Z, Cv2.q1 st = inject_Z k) ->
  Cv2.max_val st = 0 ->
  Cv2.max_val (fold_left (Cv2.otsu_step scale mu) bins st) = 0.
Proof.
  intros Hb. revert st. induction Hb as [|[i hi] bins [j Hj] _ IH];
    intros st [k Hk] Hmax; [exact Hmax|].
  simpl. apply IH.
  - unfold Cv2.otsu_step.
    assert (Eq : Qred (Cv2.q1 st + inject_Z hi * scale) = inject_Z (k + j)).
    { transitivity (Qred (inject_Z (k + j))); [|apply Qred_inject_Z].
      apply Qred_complete.
      cbn [snd] in Hj. rewrite Hk, Hj, inject_Z_plus. reflexivity. }
    rewrite Eq.
    destruct (_ || _); simpl; [exists (k + j); reflexivity|].
    destruct (Qlt_bool _ _); simpl; exists (k + j); reflexivity.
  - unfold Cv2.otsu_step.
    assert (Eq : Qred (Cv2.q1 st + inject_Z hi * scale) = inject_Z (k + j)).
    { transitivity (Qred (inject_Z (k + j))); [|apply Qred_inject_Z].
      apply Qred_complete.
      cbn [snd] in Hj. rewrite Hk, Hj, inject_Z_plus. reflexivity. }
    rewrite Eq.
    assert (Ht : Qlt_bool (Qmin (inject_Z (k + j)) (1 - inject_Z (k + j)))
                          Cv2.FLT_EPSILON = true).
    { apply Qlt_bool_iff.
      assert (He : (0 < Cv2.FLT_EPSILON)%Q) by reflexivity.
      destruct (Z.le_gt_cases (k + j) 0) as [L|L].
      - apply Qle_lt_trans with (inject_Z (k + j)); [apply Q.le_min_l|].
        apply Qle_lt_trans with 0%Q; [|exact He].
        change 0%Q with (inject_Z 0). rewrite <- Zle_Qle. exact L.
      - apply Qle_lt_trans with (1 - inject_Z (k + j))%Q;
          [apply Q.le_min_r|].
        apply Qle_lt_trans with 0%Q; [|exact He].
        assert (H1 : (1 <= inject_Z (k + j))%Q).
        { change 1%Q with (inject_Z 1). rewrite <- Zle_Qle. lia. }
        lra. }
    rewrite Ht. simpl. exact Hmax.
Qed.

Lemma otsu_uniform (h w : nat) (g : Z) :
  Cv2.otsu (replicate h (replicate w g)) = 0.
Proof.
  unfold Cv2.otsu. rewrite histogram_uniform, zip_map_self.
  rewrite (sum_indicator g (Z.of_nat (h * w)) 0 256).
  apply otsu_fold_skips; [|exists 0; reflexivity | reflexivity].
  apply Forall_forall. intros [i hi] Hin.
  apply list_elem_of_fmap in Hin as [i' [Heq Hin]].
  injection Heq as -> ->. cbn [snd].
  destruct (decide (g = i')) as [->|Hne].
  - apply list_elem_of_fmap in Hin as [n [-> Hn]].
    apply elem_of_seq in Hn.
    destruct (decide (Z.of_nat 0 <= Z.of_nat n < Z.of_nat (0 + 256)));
      [|lia].
    destruct (Nat.eq_dec (h * w)%nat 0%nat) as [E|E].
    + rewrite E. exists 0. simpl. ring.
    + exists 1. field. intros H0.
      assert (Hz : (0 < inject_Z (Z.of_nat (h * w)))%Q).
      { change 0%Q with (inject_Z 0). rewrite <- Zlt_Qlt. lia. }
      rewrite H0 in Hz. exact (Qlt_irrefl _ Hz).
  - exists 0. simpl. ring.
Qed.

Lemma threshold_uniform (h w : nat) (g : Z) :
  Cv2.threshold (replicate h (replicate w g))
  = replicate h (replicate w (if 0 <? g then 255 else 0)).
Proof.
  unfold Cv2.threshold. rewrite otsu_uniform, !map_replicate. reflexivity.
Qed.

(** The foreground pixels of a mask. *)
Lemma elem_of_foreground (mask : list (list Z)) (x y : Z) :
  (x, y) ∈ Cv2.foreground mask <->
  exists i j row v, mask !! i = Some row /\ row !! j = Some v /\ v <> 0
                    /\ x = Z.of_nat j /\ y = Z.of_nat i.
Proof.
  unfold Cv2.foreground. rewrite list_elem_of_In, in_concat. split.
  - intros (l & Hl & Hin). apply list_elem_of_In in Hl, Hin.
    apply elem_of_lookup_imap in Hl as (i & row & -> & Hrow).
    apply list_elem_of_omap in Hin as ([j v] & Hjv & Hsome).
    apply elem_of_lookup_imap in Hjv as (j' & v' & Heq & Hv).
    injection Heq as -> ->. cbn [fst snd] in Hsome.
    destruct (Z.eqb_spec v' 0) as [|Hne]; [discriminate Hsome|].
    injection Hsome as <- <-. exists i, j', row, v'. auto.
  - intros (i & j & row & v & Hrow & Hv & Hne & -> & ->).
    eexists. split; apply list_elem_of_In.
    + apply (elem_of_lookup_imap_2 _ _ _ i Hrow).
    + apply list_elem_of_omap. exists (j, v). split.
      * apply (elem_of_lookup_imap_2 (fun x v => (x, v)) _ _ j Hv).
      * cbn [fst snd]. destruct (Z.eqb_spec v 0); [contradiction|reflexivity].
Qed.

Lemma foreground_zero (h w : nat) :
  Cv2.foreground (replicate h (replicate w 0)) = [].
Proof.
  destruct (Cv2.foreground _) as [|[x y] l] eqn:E; [reflexivity|].
  assert (Hin : (x, y) ∈ Cv2.foreground (replicate h (replicate w 0)))
    by (rewrite E; apply elem_of_cons; left; reflexivity).
  apply elem_of_foreground in Hin as (i & j & row & v & Hrow & Hv & Hne & _).
  apply lookup_replicate in Hrow as [-> _].
  apply lookup_replicate in Hv as [-> _]. contradiction.
Qed.

Lemma elem_of_foreground_full (h w : nat) (x y : Z) :
  (x, y) ∈ Cv2.foreground (replicate h (replicate w 255)) <->
  0 <= x < Z.of_nat w /\ 0 <= y < Z.of_nat h.
Proof.
  rewrite elem_of_foreground. split.
  - intros (i & j & row & v & Hrow & Hv & _ & -> & ->).
    apply lookup_replicate in Hrow as [-> Hi].
    apply lookup_replicate in Hv as [_ Hj]. lia.
  - intros [Hx Hy].
    exists (Z.to_nat y), (Z.to_nat x), (replicate w 255), 255.
    split; [apply lookup_replicate_2; lia|].
    split; [apply lookup_replicate_2; lia|].
    split; [discriminate | lia].
Qed.

Lemma fold_min_le (a : Z) (l : list Z) (z : Z) :
  z ∈ a :: l -> fold_right Z.min a l <= z.
Proof.
  induction l as [|b l IH]; simpl; intros Hin.
  - apply elem_of_cons in Hin as [->|Hin]; [lia | inversion Hin].
  - apply elem_of_cons in Hin as [->|Hin].
    + specialize (IH ltac:(apply elem_of_cons; left; reflexivity)). lia.
    + apply elem_of_cons in Hin as [->|Hin]; [lia|].
      specialize (IH ltac:(apply elem_of_cons; right; exact Hin)). lia.
Qed.

Lemma fold_min_in (a : Z) (l : list Z) : fold_right Z.min a l ∈ a :: l.
Proof.
  induction l as [|b l IH]; simpl; [apply elem_of_cons; left; reflexivity|].
  destruct (Z.min_spec b (fold_right Z.min a l)) as [[_ ->]|[_ ->]].
  - apply elem_of_cons. right. apply elem_of_cons. left. reflexivity.
  - apply elem_of_cons in IH as [IH|IH].
    + apply elem_of_cons. left. exact IH.
    + apply elem_of_cons. right. apply elem_of_cons. right. exact IH.
Qed.

Lemma fold_max_ge (a : Z) (l : list Z) (z : Z) :
  z ∈ a :: l -> z <= fold_right Z.max a l.
Proof.
  induction l as [|b l IH]; simpl; intros Hin.
  - apply elem_of_cons in Hin as [->|Hin]; [lia | inversion Hin].
  - apply elem_of_cons in Hin as [->|Hin].
    + specialize (IH ltac:(apply elem_of_cons; left; reflexivity)). lia.
    + apply elem_of_cons in Hin as [->|Hin]; [lia|].
      specialize (IH ltac:(apply elem_of_cons; right; exact Hin)). lia.
Qed.

Lemma fold_max_in (a : Z) (l : list Z) : fold_right Z.max a l ∈ a :: l.
Proof.
  induction l as [|b l IH]; simpl; [apply elem_of_cons; left; reflexivity|].
  destruct (Z.max_spec b (fold_right Z.max a l)) as [[_ ->]|[_ ->]].
  - apply elem_of_cons in IH as [IH|IH].
    + apply elem_of_cons. left. exact IH.
    + apply elem_of_cons. right. apply elem_of_cons. right. exact IH.
  - apply elem_of_cons. right. apply elem_of_cons. left. reflexivity.
Qed.

Lemma frame_area (W H : Z) :
  0 <= W -> 0 <= H -> (Cv2.contour_area (frame W H) == inject_Z (W * H))%Q.
Proof.
  intros HW HH. unfold frame.
  destruct (Z.eq_dec W 0) as [->|NW]; destruct (Z.eq_dec H 0) as [->|NH];
    cbn [Cv2.dedup_adjacent];
    repeat (case_decide;
            cbn [Cv2.dedup_adjacent Cv2.close_ring last removelast] in *;
            simplify_eq; try lia);
    cbn [Cv2.contour_area Cv2.shoelace fst snd];
    unfold Qeq; cbn [Qnum Qden inject_Z]; try lia.
Qed.

Lemma find_contours_zero (h w : nat) :
  Cv2.find_contours (replicate h (replicate w 0)) = [].
Proof. unfold Cv2.find_contours. rewrite foreground_zero. reflexivity. Qed.

Lemma find_contours_full (h w : nat) :
  (1 <= w)%nat -> (1 <= h)%nat ->
  Cv2.find_contours (replicate h (replicate w 255))
  = [frame (Z.of_nat w - 1) (Z.of_nat h - 1)].
Proof.
  intros Hw Hh. unfold Cv2.find_contours.
  pose proof (elem_of_foreground_full h w) as Hfg.
  destruct (Cv2.foreground (replicate h (replicate w 255)))
    as [|[x y] rest] eqn:E.
  { exfalso. assert (H : (0, 0) ∈ @nil (Z * Z)) by (apply Hfg; lia).
    inversion H. }
  assert (Hxs : forall z, z ∈ x :: map fst rest ->
                  0 <= z < Z.of_nat w).
  { intros z Hz. change (x :: map fst rest) with (map fst ((x, y) :: rest))
      in Hz.
    apply list_elem_of_fmap in Hz as [[x' y'] [-> Hin]].
    apply Hfg in Hin. simpl. lia. }
  assert (Hys : forall z, z ∈ y :: map snd rest ->
                  0 <= z < Z.of_nat h).
  { intros z Hz. change (y :: map snd rest) with (map snd ((x, y) :: rest))
      in Hz.
    apply list_elem_of_fmap in Hz as [[x' y'] [-> Hin]].
    apply Hfg in Hin. simpl. lia. }
  assert (Hx_in : forall z, 0 <= z < Z.of_nat w -> z ∈ x :: map fst rest).
  { intros z Hz. change (x :: map fst rest) with (map fst ((x, y) :: rest)).
    apply list_elem_of_fmap. exists (z, 0). split; [reflexivity|].
    apply Hfg. lia. }
  assert (Hy_in : forall z, 0 <= z < Z.of_nat h -> z ∈ y :: map snd rest).
  { intros z Hz. change (y :: map snd rest) with (map snd ((x, y) :: rest)).
    apply list_elem_of_fmap. exists (0, z). split; [reflexivity|].
    apply Hfg. lia. }
  assert (X0 : fold_right Z.min x (map fst rest) = 0).
  { pose proof (Hxs _ (fold_min_in x (map fst rest))).
    pose proof (fold_min_le x (map fst rest) 0 (Hx_in 0 ltac:(lia))). lia. }
  assert (X1 : fold_right Z.max x (map fst rest) = Z.of_nat w - 1).
  { pose proof (Hxs _ (fold_max_in x (map fst rest))).
    pose proof (fold_max_ge x (map fst rest) (Z.of_nat w - 1)
                  (Hx_in (Z.of_nat w - 1) ltac:(lia))). lia. }
  assert (Y0 : fold_right Z.min y (map snd rest) = 0).
  { pose proof (Hys _ (fold_min_in y (map snd rest))).
    pose proof (fold_min_le y (map snd rest) 0 (Hy_in 0 ltac:(lia))). lia. }
  assert (Y1 : fold_right Z.max y (map snd rest) = Z.of_nat h - 1).
  { pose proof (Hys _ (fold_max_in y (map snd rest))).
    pose proof (fold_max_ge y (map snd rest) (Z.of_nat h - 1)
                  (Hy_in (Z.of_nat h - 1) ltac:(lia))). lia. }
  cbv zeta. rewrite X0, X1, Y0, Y1. reflexivity.
Qed.

Lemma gray_of_solid (w h : nat) (p : rgb) :
  gray_of Cv2.reference (im_array (solid_rgb w h p))
  = replicate h (replicate w (Cv2.rgb2gray p)).
Proof. simpl. rewrite !map_replicate. reflexivity. Qed.

(** ** Uniform images *)

Lemma significant_contours_dark (w h : nat) (p : rgb) :
  Cv2.rgb2gray p <= 0 ->
  significant_contours Cv2.reference (Z.of_nat w) (Z.of_nat h)
    (im_array (solid_rgb w h p)) = [].
Proof.
  intros Hg. unfold significant_contours. rewrite gray_of_solid.
  cbn [threshold_otsu findContours Cv2.reference].
  rewrite threshold_uniform.
  destruct (Z.ltb_spec 0 (Cv2.rgb2gray p)) as [L|_]; [lia|].
  rewrite find_contours_zero. reflexivity.
Qed.

Lemma significant_contours_light (w h : nat) (p : rgb) :
  (1 <= w)%nat -> (1 <= h)%nat -> 0 < Cv2.rgb2gray p ->
  significant_contours Cv2.reference (Z.of_nat w) (Z.of_nat h)
    (im_array (solid_rgb w h p))
  = if Qlt_bool (min_area (Z.of_nat w) (Z.of_nat h))
                (inject_Z ((Z.of_nat w - 1) * (Z.of_nat h - 1)))
    then [frame (Z.of_nat w - 1) (Z.of_nat h - 1)] else [].
Proof.
  intros Hw Hh Hg. unfold significant_contours. rewrite gray_of_solid.
  cbn [threshold_otsu findContours contourArea Cv2.reference].
  rewrite threshold_uniform.
  destruct (Z.ltb_spec 0 (Cv2.rgb2gray p)) as [_|L]; [|lia].
  rewrite (find_contours_full h w Hw Hh).
  rewrite filter_cons, filter_nil.
  rewrite (Qlt_bool_comp _ (min_area (Z.of_nat w) (Z.of_nat h)) _
             (inject_Z ((Z.of_nat w - 1) * (Z.of_nat h - 1)))
             (Qeq_refl _)
             (frame_area (Z.of_nat w - 1) (Z.of_nat h - 1)
                ltac:(lia) ltac:(lia))).
  destruct (Qlt_bool _ _); destruct (decide _) as [D|D];
    [reflexivity | exfalso; apply D; exact I | destruct D | reflexivity].
Qed.

Lemma np_mean_singleton (q : Q) (k : Z) :
  (q == inject_Z k)%Q -> np_mean [q] = np_mean [inject_Z k].
Proof.
  intros E. unfold np_mean. cbn [length pairwise_sum Nat.ltb Nat.leb fold_left].
  unfold fadd. rewrite (fl64_comp (0 + q) (0 + inject_Z k)); [reflexivity|].
  rewrite E. reflexivity.
Qed.

Lemma np_mean_singleton_int (k : Z) :
  0 <= k < 2 ^ 53 -> np_mean [inject_Z k] = inject_Z k.
Proof.
  intros Hk. unfold np_mean.
  cbn [length pairwise_sum Nat.ltb Nat.leb fold_left].
  unfold fadd, fdiv, of_int.
  rewrite (fl64_comp (0 + inject_Z k) (inject_Z k)) by ring.
  rewrite (fl64_int k Hk).
  change (Z.of_nat 1) with 1. rewrite (fl64_int 1) by lia.
  rewrite (fl64_comp (inject_Z k / inject_Z 1) (inject_Z k))
    by (change (inject_Z 1) with 1%Q; field).
  apply fl64_int, Hk.
Qed.

Lemma default_area_below_one (a : ndarray) :
  py_min_Q (fmul (fl64 (1 # 10)) (area_factor a)) 1
  = fmul (fl64 (1 # 10)) (area_factor a).
Proof.
  unfold py_min_Q. destruct (Qlt_bool 1 _) eqn:E; [|reflexivity].
  exfalso. apply Qlt_bool_iff in E.
  pose proof (area_factor_range a) as [F0 F1].
  assert (H7 : (0 <= fl64 (7 # 10))%Q) by (vm_compute; discriminate).
  assert (Hb : (fmul (fl64 (1 # 10)) (area_factor a)
                <= fmul (fl64 (1 # 10)) area_factor_max)%Q).
  { apply fmul_mono; [vm_compute; discriminate | apply Qle_refl
                      | apply Qle_trans with (fl64 (7 # 10)); assumption
                      | exact F1]. }
  assert (Hc : (fmul (fl64 (1 # 10)) area_factor_max <= 1)%Q)
    by (vm_compute; discriminate).
  lra.
Qed.

Lemma count_mod_small (n : Z) (a : ndarray) :
  0 <= n <= 1 ->
  py_max_Z 1 (py_int (fmul (of_int n) (count_factor a))) = 1.
Proof.
  intros Hn. pose proof (count_mod_bounds n a ltac:(lia)) as [B0 B1].
  assert (U : 6 * n / 5 < 2) by (apply Z.div_lt_upper_bound; lia).
  rewrite py_max_Z_max. lia.
Qed.

(** From 2x2 pixels on, the frame of the image covers more than 0.1% of
    its area. *)
Lemma frame_significant (w h : Z) :
  2 <= w -> 2 <= h -> w * h < 2 ^ 53 ->
  Qlt_bool (min_area w h) (inject_Z ((w - 1) * (h - 1))) = true.
Proof.
  intros Hw Hh Hn. apply Qlt_bool_iff. unfold min_area, fmul, of_int.
  rewrite (fl64_int (w * h)) by nia.
  assert (Ec : (fl64 (1 # 1000) <= 1001 # 1000000)%Q)
    by (vm_compute; discriminate).
  assert (Ec0 : (1 # 1024 <= fl64 (1 # 1000))%Q)
    by (vm_compute; discriminate).
  assert (Ek : (1 + 2 ^ (-53) <= 1001 # 1000)%Q)
    by (vm_compute; discriminate).
  assert (Ek0 : (0 <= 1 + 2 ^ (-53))%Q) by (vm_compute; discriminate).
  assert (Em : (2 ^ (-1022) <= 1 # 1024)%Q) by (vm_compute; discriminate).
  set (c := fl64 (1 # 1000)) in *. clearbody c.
  set (k := (1 + 2 ^ (-53))%Q) in *.
  assert (Hn4 : (4 <= inject_Z (w * h))%Q).
  { change 4%Q with (inject_Z 4). rewrite <- Zle_Qle. nia. }
  assert (Ht : (inject_Z (w * h) <= 4 * inject_Z ((w - 1) * (h - 1)))%Q).
  { change 4%Q with (inject_Z 4). rewrite <- inject_Z_mult, <- Zle_Qle. nia. }
  set (n := inject_Z (w * h)) in *. clearbody n.
  set (t := inject_Z ((w - 1) * (h - 1))) in *. clearbody t.
  assert (Hx0 : (n * (1 # 1024) <= n * c)%Q)
    by (apply Qmult_le_l; [lra | exact Ec0]).
  assert (Hx1 : (n * c <= n * (1001 # 1000000))%Q)
    by (apply Qmult_le_l; [lra | exact Ec]).
  assert (Hup : (fl64 (n * c) <= n * c * k)%Q)
    by (apply fl64_upper; lra).
  assert (Hk : (n * c * k <= n * c * (1001 # 1000))%Q)
    by (apply Qmult_le_l; [lra | exact Ek]).
  lra.
Qed.

(** C8, as stated, fails on the all-white 100x100 image: Otsu's threshold
    of a uniform plane is 0, every pixel of value 255 lies above it, the
    mask is entirely foreground and its outer contour is the frame
    (0,0)-(99,99) of area 9801, far above the significance bound 10.  The
    significant-contour path is taken and [mean_area_mod] is the float
    product of [0.9801] and [0.7], not of [0.1] and [0.7]; the count is
    still 1 and the ratio 1.0. *)
Lemma uniform_white_counterexample :
  exists f, extract_image_features Cv2.reference white_100 = Ok f
    /\ significant_contours Cv2.reference 100 100 (im_array white_100)
       = [[(0, 0); (0, 99); (99, 99); (99, 0)]]
    /\ img_hash (im_array white_100) = 0%Q
    /\ mean_area_mod f = fmul (fl64 (9801 # 10000)) (fl64 (7 # 10))
    /\ (68 # 100 < mean_area_mod f)%Q
    /\ mean_area_mod f
       <> fmul (fl64 (1 # 10))
               (fadd (fl64 (7 # 10))
                     (fmul (fl64 (6 # 10)) (img_hash (im_array white_100)))).
Proof.
  assert (E : extract_image_features Cv2.reference white_100
              = Ok {| num_objects_mod := 1;
                      mean_area_mod :=
                        fmul (fl64 (9801 # 10000)) (fl64 (7 # 10));
                      categories_mod := 1;
                      ratio_hw := 1 |})
    by (vm_compute; reflexivity).
  eexists. split; [exact E|].
  split; [vm_compute; reflexivity|].
  split; [vm_compute; reflexivity|].
  split; [reflexivity|].
  split; [vm_compute; reflexivity|].
  cbn [mean_area_mod]. vm_compute. discriminate.
Qed.

(** C8, amended: every uniform image has [num_objects_mod = 1], and
    [ratio_hw = 1.0] when it is square.  Which path is taken depends on the
    gray level of the colour and on the size.  At gray level 0 (black), and
    for an image one pixel wide or high, no contour is significant and
    [mean_area_mod = 0.1 * (0.7 + 0.6*img_hash)].  At a positive gray level
    (white, for one) the whole mask is foreground, and from 2x2 pixels on
    its frame is the one significant contour, so that
    [mean_area = (w-1)(h-1) / (w*h)] and [mean_area_mod] is the minimum of
    [mean_area * (0.7 + 0.6*img_hash)] and 1. *)
Theorem uniform_image_features (w h : nat) (p : rgb) :
  (1 <= w)%nat -> (1 <= h)%nat ->
  let image := solid_rgb w h p in
  let a := im_array image in
  let W := Z.of_nat w in
  let H := Z.of_nat h in
  exists f, extract_image_features Cv2.reference image = Ok f
    /\ num_objects_mod f = 1
    /\ (h = w -> ratio_hw f = 1%Q)
    /\ (Cv2.rgb2gray p <= 0 \/ W = 1 \/ H = 1 ->
        significant_contours Cv2.reference W H a = []
        /\ mean_area_mod f = fmul (fl64 (1 # 10)) (area_factor a))
    /\ (0 < Cv2.rgb2gray p -> 2 <= W -> 2 <= H -> W * H < 2 ^ 53 ->
        num_objects Cv2.reference W H a = 1
        /\ mean_area Cv2.reference W H a
           = fl64 (inject_Z ((W - 1) * (H - 1)) / inject_Z (W * H))
        /\ mean_area_mod f
           = py_min_Q (fmul (fl64 (inject_Z ((W - 1) * (H - 1))
                                   / inject_Z (W * H)))
                            (area_factor a)) 1).
Proof.
  intros Hw Hh image a W H.
  unfold extract_image_features. cbn [im_size image solid_rgb].
  destruct (Z.eqb_spec (Z.of_nat w) 0) as [E|_]; [lia|].
  destruct (Z.eqb_spec (Z.of_nat h) 0) as [E|_]; [lia|].
  eexists. split; [reflexivity|].
  cbn [num_objects_mod mean_area_mod ratio_hw].
  fold image. fold a. fold W. fold H.
  pose proof (significant_contours_light w h p Hw Hh) as Hlight.
  fold image in Hlight. fold a in Hlight. fold W in Hlight. fold H in Hlight.
  assert (Hnone : Cv2.rgb2gray p <= 0 \/ W = 1 \/ H = 1 ->
                  significant_contours Cv2.reference W H a = []).
  { intros Hc. destruct (Z.le_gt_cases (Cv2.rgb2gray p) 0) as [L|L];
      [apply significant_contours_dark, L|].
    rewrite (Hlight ltac:(lia)).
    replace ((W - 1) * (H - 1)) with 0 by nia.
    replace (Qlt_bool (min_area W H) (inject_Z 0)) with false; [reflexivity|].
    symmetry. apply Qlt_bool_false_iff.
    apply min_area_nonneg; unfold W, H; lia. }
  split; [|split; [|split]].
  - apply count_mod_small. unfold num_objects.
    destruct (Z.le_gt_cases (Cv2.rgb2gray p) 0) as [L|L].
    + rewrite (Hnone (or_introl L)). simpl. lia.
    + rewrite (Hlight ltac:(lia)). destruct (Qlt_bool _ _); simpl; lia.
  - intros ->. transitivity (fl64 1); [|vm_compute; reflexivity].
    apply fl64_comp. apply Qmult_inv_r. intros E.
    assert (Hz : (0 < inject_Z (Z.of_nat w))%Q).
    { change 0%Q with (inject_Z 0). rewrite <- Zlt_Qlt. lia. }
    apply (Qlt_not_eq _ _ Hz). symmetry. exact E.
  - intros Hc. split; [exact (Hnone Hc)|].
    unfold mean_area, num_objects. rewrite (Hnone Hc). simpl length.
    change (0 <? Z.of_nat 0) with false. cbv iota.
    apply default_area_below_one.
  - intros L HW HH HN.
    pose proof (frame_significant W H HW HH HN) as S.
    assert (Hs : significant_contours Cv2.reference W H a
                 = [frame (W - 1) (H - 1)])
      by (rewrite (Hlight L), S; reflexivity).
    assert (Hm : mean_area Cv2.reference W H a
                 = fl64 (inject_Z ((W - 1) * (H - 1)) / inject_Z (W * H))).
    { unfold mean_area, num_objects. rewrite Hs. simpl length.
      change (0 <? Z.of_nat 1) with true. cbv iota.
      cbn [map contourArea Cv2.reference].
      rewrite (np_mean_singleton _ ((W - 1) * (H - 1)))
        by (apply frame_area; lia).
      rewrite np_mean_singleton_int by nia.
      unfold fdiv, of_int. rewrite (fl64_int (W * H)) by nia.
      reflexivity. }
    split; [unfold num_objects; rewrite Hs; reflexivity|].
    split; [exact Hm|]. rewrite Hm. reflexivity.
Qed.

Lemma uniform_image_features_witness :
  exists f, extract_image_features Cv2.reference white_100 = Ok f
    /\ num_objects_mod f = 1
    /\ (100%nat = 100%nat -> ratio_hw f = 1%Q)
    /\ (Cv2.rgb2gray (255, 255, 255) <= 0 \/ 100 = 1 \/ 100 = 1 ->
        significant_contours Cv2.reference 100 100 (im_array white_100) = []
        /\ mean_area_mod f
           = fmul (fl64 (1 # 10)) (area_factor (im_array white_100)))
    /\ (0 < Cv2.rgb2gray (255, 255, 255) -> 2 <= 100 -> 2 <= 100 ->
        100 * 100 < 2 ^ 53 ->
        num_objects Cv2.reference 100 100 (im_array white_100) = 1
        /\ mean_area Cv2.reference 100 100 (im_array white_100)
           = fl64 (inject_Z ((100 - 1) * (100 - 1)) / inject_Z (100 * 100))
        /\ mean_area_mod f
           = py_min_Q (fmul (fl64 (inject_Z ((100 - 1) * (100 - 1))
                                   / inject_Z (100 * 100)))
                            (area_factor (im_array white_100))) 1).
Proof.
  apply (uniform_image_features 100 100 (255, 255, 255)); lia.
Defined.

(** ** Running the drawing loop *)

Lemma inverted_false (bx : box) : well_ordered bx <-> inverted bx = false.
Proof.
  destruct bx as [[[x1 y1] x2] y2]. unfold well_ordered, inverted.
  rewrite orb_false_iff, !Qlt_bool_false_iff. reflexivity.
Qed.


Section DrawFacts.
Variable paint : DrawCmd -> ndarray -> ndarray.

Lemma issue_app (image : loc) (c1 c2 : list DrawCmd) (w : World) :
  issue paint image (c1 ++ c2) w = issue paint image c2 (issue paint image c1 w).
Proof. unfold issue. apply fold_left_app. Qed.

Lemma issue_cons (image : loc) (c : DrawCmd) (cmds : list DrawCmd)
    (w : World) :
  issue paint image (c :: cmds) w
  = issue paint image cmds (carry_out paint image c w).
Proof. reflexivity. Qed.

Lemma trace_issue (image : loc) (cmds : list DrawCmd) (w : World) :
  trace (issue paint image cmds w) = trace w ++ map (pair image) cmds.
Proof.
  revert w. induction cmds as [|c cmds IH]; intros w.
  - symmetry. apply app_nil_r.
  - rewrite issue_cons, IH. simpl. rewrite <- app_assoc. reflexivity.
Qed.

Lemma font_files_issue (image : loc) (cmds : list DrawCmd) (w : World) :
  font_files (issue paint image cmds w) = font_files w.
Proof.
  revert w. induction cmds as [|c cmds IH]; intros w; [reflexivity|].
  rewrite issue_cons, IH. reflexivity.
Qed.

Lemma heap_issue_ne (image l : loc) (cmds : list DrawCmd) (w : World) :
  l <> image -> heap (issue paint image cmds w) !! l = heap w !! l.
Proof.
  intros Hne. revert w. induction cmds as [|c cmds IH]; intros w;
    [reflexivity|].
  rewrite issue_cons, IH. simpl. apply lookup_alter_ne. congruence.
Qed.

Lemma heap_issue_size (image : loc) (cmds : list DrawCmd) (w : World) :
  im_size <$> heap (issue paint image cmds w) !! image
  = im_size <$> heap w !! image.
Proof.
  revert w. induction cmds as [|c cmds IH]; intros w; [reflexivity|].
  rewrite issue_cons, IH. simpl. rewrite lookup_alter_eq.
  destruct (heap w !! image); reflexivity.
Qed.

Lemma dom_issue (image : loc) (cmds : list DrawCmd) (w : World) :
  dom (heap (issue paint image cmds w)) = dom (heap w).
Proof.
  revert w. induction cmds as [|c cmds IH]; intros w; [reflexivity|].
  rewrite issue_cons, IH. simpl. apply dom_alter_L.
Qed.

Lemma font_of_issue (image : loc) (cmds : list DrawCmd) (w : World) :
  font_of (issue paint image cmds w) = font_of w.
Proof. unfold font_of. rewrite font_files_issue. reflexivity. Qed.

Lemma draw_detection_run (image : loc) (font : Font)
    (categories : list string) (threshold : Q) (d : box * Z * Q) (w : World) :
  draw_detection paint image font categories threshold d w
  = (detection_result categories threshold d,
     issue paint image (drawn_for font categories threshold d) w).
Proof.
  destruct d as [[[[[x1 y1] x2] y2] lbl] score].
  unfold draw_detection, drawn_for, detection_result.
  destruct (Qlt_bool score threshold); [reflexivity|].
  unfold mbind, M_bind. unfold draw at 1. cbn [rejected].
  destruct (inverted (x1, y1, x2, y2)); [reflexivity|].
  destruct (make_label categories lbl score) as [label|e]; reflexivity.
Qed.

Lemma for_each_run (image : loc) (font : Font) (categories : list string)
    (threshold : Q) (dets : list (box * Z * Q)) (w : World) :
  for_each dets (draw_detection paint image font categories threshold) w
  = (fst (loop_run font categories threshold dets),
     issue paint image (snd (loop_run font categories threshold dets)) w).
Proof.
  revert w. induction dets as [|d ds IH]; intros w; [reflexivity|].
  cbn [for_each loop_run]. unfold mbind, M_bind.
  rewrite draw_detection_run.
  destruct (detection_result categories threshold d) as [[]|e];
    [|reflexivity].
  rewrite IH. destruct (loop_run font categories threshold ds) as [r cmds].
  cbn [fst snd]. rewrite issue_app. reflexivity.
Qed.

Lemma draw_boxes_run (image : loc) (boxes : list box) (labels : list Z)
    (scores : list Q) (categories : list string) (threshold : Q) (w : World) :
  draw_boxes paint image boxes labels scores categories threshold w
  = (match fst (loop_run (font_of w) categories threshold
                         (zip3 boxes labels scores)) with
     | Ok _ => Ok image
     | Raise e => Raise e
     end,
     issue paint image
           (snd (loop_run (font_of w) categories threshold
                          (zip3 boxes labels scores))) w).
Proof.
  unfold draw_boxes, mbind, M_bind, load_font. fold (font_of w).
  rewrite for_each_run.
  destruct (fst (loop_run (font_of w) categories threshold
                          (zip3 boxes labels scores))) as [[]|e]; reflexivity.
Qed.
End DrawFacts.

(** ** Label lookup *)



Lemma py_getitem_in_range (categories : list string) (lbl : Z) :
  ~ out_of_range categories lbl ->
  exists name, py_getitem categories lbl = Ok name.
Proof.
  unfold out_of_range, py_getitem. intros H.
  set (n := Z.of_nat (length categories)) in *.
  set (j := if lbl <? 0 then lbl + n else lbl).
  assert (Hj : 0 <= j < n) by (subst j; destruct (Z.ltb_spec lbl 0); lia).
  destruct (Z.ltb_spec j 0); [lia|].
  destruct (Z.leb_spec n j); [lia|]. simpl.
  destruct (lookup_lt_is_Some_2 categories (Z.to_nat j)) as [name Hname];
    [subst n; lia|].
  rewrite Hname. exists name. reflexivity.
Qed.


Lemma py_getitem_negative (categories : list string) (lbl : Z) :
  - Z.of_nat (length categories) <= lbl < 0 ->
  exists name,
    categories !! Z.to_nat (lbl + Z.of_nat (length categories)) = Some name
    /\ py_getitem categories lbl = Ok name
    /\ py_getitem categories (lbl + Z.of_nat (length categories)) = Ok name.
Proof.
  intros H.
  assert (L1 : (lbl <? 0) = true) by (apply Z.ltb_lt; lia).
  assert (L2 : (lbl + Z.of_nat (length categories) <? 0) = false)
    by (apply Z.ltb_ge; lia).
  assert (L3 : (Z.of_nat (length categories)
                <=? lbl + Z.of_nat (length categories)) = false)
    by (apply Z.leb_gt; lia).
  destruct (lookup_lt_is_Some_2 categories
              (Z.to_nat (lbl + Z.of_nat (length categories))))
    as [name Hname]; [lia|].
  exists name. split; [exact Hname|]. split.
  - unfold py_getitem. rewrite L1, L2, L3, Hname. reflexivity.
  - unfold py_getitem. rewrite L2, L2, L3, Hname. reflexivity.
Qed.




Lemma detection_result_valid (categories : list string) (threshold : Q)
    (bx : box) (lbl : Z) (score : Q) :
  ((threshold <= score)%Q ->
   well_ordered bx /\ ~ out_of_range categories lbl) ->
  detection_result categories threshold (bx, lbl, score) = Ok tt.
Proof.
  intros Hvalid. unfold detection_result, make_label.
  destruct (Qlt_bool score threshold) eqn:E; [reflexivity|].
  apply Qlt_bool_false_iff in E. destruct (Hvalid E) as [Hb Hl].
  apply inverted_false in Hb. rewrite Hb.
  destruct (py_getitem_in_range _ _ Hl) as [name ->]. reflexivity.
Qed.


Lemma detection_result_ok (categories : list string) (threshold : Q)
    (dets : list (box * Z * Q)) :
  (forall bx lbl score, (bx, lbl, score) ∈ dets ->
     (threshold <= score)%Q ->
     well_ordered bx /\ ~ out_of_range categories lbl) ->
  Forall (fun d => detection_result categories threshold d = Ok tt) dets.
Proof.
  intros Hvalid. apply Forall_forall. intros [[bx lbl] score] Hin.
  apply detection_result_valid. exact (Hvalid _ _ _ Hin).
Qed.

Lemma loop_run_ok (font : Font) (categories : list string) (threshold : Q)
    (dets : list (box * Z * Q)) :
  Forall (fun d => detection_result categories threshold d = Ok tt) dets ->
  loop_run font categories threshold dets
  = (Ok tt, flat_map (drawn_for font categories threshold) dets).
Proof.
  induction 1 as [|d ds Hd _ IH]; [reflexivity|].
  cbn [loop_run flat_map]. rewrite Hd, IH. reflexivity.
Qed.



Lemma loop_run_app (font : Font) (categories : list string) (threshold : Q)
    (d1 d2 : list (box * Z * Q)) :
  loop_run font categories threshold (d1 ++ d2)
  = match fst (loop_run font categories threshold d1) with
    | Ok _ => (fst (loop_run font categories threshold d2),
               snd (loop_run font categories threshold d1)
               ++ snd (loop_run font categories threshold d2))
    | Raise e => loop_run font categories threshold d1
    end.
Proof.
  induction d1 as [|d d1 IH]; simpl.
  - destruct (loop_run font categories threshold d2); reflexivity.
  - destruct (detection_result categories threshold d) as [[]|e];
      [|reflexivity].
    rewrite IH.
    destruct (loop_run font categories threshold d1) as [[[]|e] cmds];
      simpl; [|reflexivity].
    rewrite app_assoc. reflexivity.
Qed.

Lemma loop_run_result_font (f1 f2 : Font) (categories : list string)
    (threshold : Q) (dets : list (box * Z * Q)) :
  fst (loop_run f1 categories threshold dets)
  = fst (loop_run f2 categories threshold dets).
Proof.
  induction dets as [|d ds IH]; [reflexivity|]. simpl.
  destruct (detection_result categories threshold d) as [[]|e];
    [|reflexivity].
  destruct (loop_run f1 categories threshold ds),
           (loop_run f2 categories threshold ds). exact IH.
Qed.

Lemma loop_run_cmds (font : Font) (categories : list string) (threshold : Q)
    (dets : list (box * Z * Q)) (c : DrawCmd) :
  c ∈ snd (loop_run font categories threshold dets) ->
  exists d, d ∈ dets /\ c ∈ drawn_for font categories threshold d.
Proof.
  induction dets as [|d ds IH]; simpl; [intros H; inversion H|].
  destruct (detection_result categories threshold d) as [[]|e].
  - destruct (loop_run font categories threshold ds) as [r cmds].
    simpl in *. intros Hin. apply elem_of_app in Hin as [Hin|Hin].
    + exists d. split; [apply elem_of_cons; left; reflexivity | exact Hin].
    + destruct (IH Hin) as (d' & Hd' & Hc). exists d'.
      split; [apply elem_of_cons; right; exact Hd' | exact Hc].
  - simpl. intros Hin. exists d.
    split; [apply elem_of_cons; left; reflexivity | exact Hin].
Qed.


Lemma drawn_for_score (font : Font) (categories : list string)
    (threshold : Q) (bx : box) (lbl : Z) (score : Q) (c : DrawCmd) :
  c ∈ drawn_for font categories threshold (bx, lbl, score) ->
  (threshold <= score)%Q /\ well_ordered bx.
Proof.
  unfold drawn_for. destruct (Qlt_bool score threshold) eqn:Es;
    [intros H; inversion H|].
  destruct (inverted bx) eqn:Eb; [intros H; inversion H|]. intros _.
  split; [apply Qlt_bool_false_iff, Es | apply inverted_false, Eb].
Qed.

Lemma drawn_for_fonts (font : Font) (categories : list string)
    (threshold : Q) (d : box * Z * Q) (xy : Q * Q) (text : string)
    (f : Font) (fill : string) :
  Text xy text f fill ∈ drawn_for font categories threshold d ->
  f = font /\ (fill = "black" \/ fill = "white").
Proof.
  destruct d as [[[[[x1 y1] x2] y2] lbl] score]. unfold drawn_for.
  destruct (Qlt_bool score threshold); [intros H; inversion H|].
  destruct (inverted _); [intros H; inversion H|].
  destruct (make_label categories lbl score) as [label|e].
  - unfold label_marks. intros Hin.
    apply elem_of_cons in Hin as [Hin|Hin]; [discriminate Hin|].
    apply elem_of_app in Hin as [Hin|Hin].
    + apply list_elem_of_fmap in Hin as [[dx dy] [Heq _]].
      injection Heq as _ _ -> ->. auto.
    + apply elem_of_cons in Hin as [Hin|Hin]; [|inversion Hin].
      injection Hin as _ _ -> ->. auto.
  - intros Hin. apply elem_of_cons in Hin as [Hin|Hin];
      [discriminate Hin | inversion Hin].
Qed.


Lemma zip3_lookup {A B C} (la : list A) (lb : list B) (lc : list C)
    (i : nat) (a : A) (b : B) (c : C) :
  zip3 la lb lc !! i = Some (a, b, c) ->
  la !! i = Some a /\ lb !! i = Some b /\ lc !! i = Some c.
Proof.
  revert lb lc i. induction la as [|a' la IH]; intros [|b' lb] [|c' lc] i H;
    try discriminate H.
  destruct i as [|i]; simpl in *.
  - injection H as -> -> ->. auto.
  - exact (IH _ _ _ H).
Qed.

Lemma zip3_length {A B C} (la : list A) (lb : list B) (lc : list C) :
  length (zip3 la lb lc)
  = Nat.min (length la) (Nat.min (length lb) (length lc)).
Proof.
  revert lb lc. induction la as [|a la IH]; intros [|b lb] [|c lc];
    simpl; try reflexivity.
  rewrite IH. reflexivity.
Qed.

Lemma zip3_take {A B C} (la : list A) (lb : list B) (lc : list C) (m : nat) :
  (Nat.min (length la) (Nat.min (length lb) (length lc)) <= m)%nat ->
  zip3 (take m la) (take m lb) (take m lc) = zip3 la lb lc.
Proof.
  revert lb lc m. induction la as [|a la IH]; intros [|b lb] [|c lc] m Hm;
    try (destruct m; reflexivity).
  destruct m as [|m]; [simpl in Hm; lia|].
  simpl. rewrite IH; [reflexivity|]. simpl in Hm. lia.
Qed.

Lemma zip3_app {A B C} (la la' : list A) (lb lb' : list B) (lc lc' : list C) :
  length la = length lb -> length lb = length lc ->
  zip3 (la ++ la') (lb ++ lb') (lc ++ lc')
  = zip3 la lb lc ++ zip3 la' lb' lc'.
Proof.
  revert lb lc. induction la as [|a la IH]; intros [|b lb] [|c lc] H1 H2;
    try discriminate; [reflexivity|].
  simpl. rewrite IH; [reflexivity | |]; simpl in *; congruence.
Qed.

(** ** Rounding of the percentage *)

Lemma format_0f_nonneg (x : Q) :
  (0 <= x)%Q -> format_0f x = pretty (round_half_even x).
Proof.
  intros H. unfold format_0f. destruct (Qlt_bool x 0) eqn:E; [|reflexivity].
  apply Qlt_bool_iff in E. lra.
Qed.

Lemma percent_nonneg (score : Q) : (0 <= score)%Q -> (0 <= percent score)%Q.
Proof. intros H. apply fl32_nonneg. lra. Qed.

Lemma percent_mono (s1 s2 : Q) :
  (s1 <= s2)%Q -> (percent s1 <= percent s2)%Q.
Proof. intros H. apply fl32_mono. lra. Qed.


Lemma make_label_ok (categories : list string) (lbl : Z) (score : Q)
    (name : string) :
  py_getitem categories lbl = Ok name -> (0 <= score)%Q ->
  make_label categories lbl score
  = Ok (name +:+ " " +:+ pretty (round_half_even (percent score)) +:+ "%").
Proof.
  intros Hname H0. unfold make_label.
  rewrite Hname, (format_0f_nonneg _ (percent_nonneg _ H0)). reflexivity.
Qed.

(** ** Properties of [draw_boxes] *)



(** [draw_boxes] itself paints on the object it is handed and returns that
    same object: the copy of line 150 is what protects the caller's image. *)
Lemma draw_boxes_in_place :
  let r := draw_boxes Pil.paint 1%positive [(1, 1, 6, 6)%Q] [0] [1%Q] coco2
                      (1 # 2) world0 in
  fst r = Ok 1%positive
  /\ heap (snd r) !! 1%positive <> heap world0 !! 1%positive.
Proof. vm_compute. split; [reflexivity | discriminate]. Qed.

(** C6. The annotation step of [handle_photo] works on a copy: whatever
    the outcome, every image object that existed before (the input image
    among them) is unchanged, and the image returned is a new object with
    the width and height of the input. *)
Theorem annotate_preserves_input
    (paint : DrawCmd -> ndarray -> ndarray) (image : loc) (im : Image)
    (boxes : list box) (labels : list Z) (scores : list Q)
    (categories : list string) (w : World) :
  heap w !! image = Some im ->
  exists r w',
    annotate paint image boxes labels scores categories w = (r, w')
    /\ heap w' !! image = Some im
    /\ (forall l im0, heap w !! l = Some im0 -> heap w' !! l = Some im0)
    /\ (forall out, r = Ok out ->
          out <> image /\ heap w !! out = None
          /\ exists im', heap w' !! out = Some im'
                         /\ im_size im' = im_size im).
Proof.
  intros Him. unfold annotate, mbind, M_bind, image_copy, new_image.
  rewrite Him. rewrite draw_boxes_run.
  set (l := fresh (dom (heap w))).
  assert (Hfresh : heap w !! l = None).
  { apply not_elem_of_dom. apply is_fresh. }
  set (w1 := {| heap := <[l:=im]> (heap w); font_files := font_files w;
                trace := trace w |}).
  set (run := loop_run (font_of w1) categories (1 # 2)
                       (zip3 boxes labels scores)).
  assert (Hkeep : forall l0 im0, heap w !! l0 = Some im0 ->
            heap (issue paint l (snd run) w1) !! l0 = Some im0).
  { intros l0 im0 H0. assert (l0 <> l) by congruence.
    rewrite heap_issue_ne by assumption. subst w1. simpl.
    rewrite lookup_insert_ne by congruence. exact H0. }
  eexists _, _. split; [reflexivity|].
  split; [exact (Hkeep _ _ Him)|]. split; [exact Hkeep|].
  intros out Hout. destruct (fst run) as [[]|e]; [|discriminate Hout].
  injection Hout as <-.
  split; [congruence|]. split; [exact Hfresh|].
  pose proof (heap_issue_size paint l (snd run) w1) as Hsz.
  subst w1. simpl in Hsz. rewrite lookup_insert_eq in Hsz. simpl in Hsz.
  destruct (heap (issue paint l (snd run) _) !! l) as [im'|];
    [|discriminate Hsz].
  exists im'. split; [reflexivity|]. simpl in Hsz. congruence.
Qed.

Lemma annotate_preserves_input_witness :
  exists r w',
    annotate Pil.paint 2%positive scenario_boxes scenario_labels
             scenario_scores coco2 world1 = (r, w')
    /\ heap w' !! 2%positive = Some (solid_rgb 8 8 (0, 0, 0))
    /\ (forall l im0, heap world1 !! l = Some im0 -> heap w' !! l = Some im0)
    /\ (forall out, r = Ok out ->
          out <> 2%positive /\ heap world1 !! out = None
          /\ exists im', heap w' !! out = Some im'
                         /\ im_size im' = im_size (solid_rgb 8 8 (0, 0, 0))).
Proof.
  apply (annotate_preserves_input Pil.paint 2%positive
           (solid_rgb 8 8 (0, 0, 0)) scenario_boxes scenario_labels
           scenario_scores coco2 world1).
  reflexivity.
Defined.






(** The product is a binary32 one: the score nearest to 0.515 lies below
    it, yet its product with 100 rounds up to 51.5 and prints as 52. *)
Lemma percent_binary32_example :
  make_label coco2 0 (fl32 (515 # 1000)) = Ok "person 52%"
  /\ round_half_even (fl32 (515 # 1000) * 100) = 51
  /\ make_label coco2 0 (fl32 (9 # 10)) = Ok "person 90%".
Proof. vm_compute. auto. Qed.

(** C10. Sequences of unequal lengths raise nothing by themselves: the loop
    runs over the first [min(len(boxes), len(labels), len(scores))]
    detections exactly as if the three sequences had been cut to that
    length, and the surplus elements are ignored; the call returns when
    those first detections have boxes that [rectangle] accepts and labels
    in range. *)
Theorem draw_boxes_unequal_lengths
    (paint : DrawCmd -> ndarray -> ndarray) (image : loc)
    (boxes : list box) (labels : list Z) (scores : list Q)
    (categories : list string) (threshold : Q) (w : World) :
  let m := Nat.min (length boxes) (Nat.min (length labels) (length scores)) in
  length (zip3 boxes labels scores) = m
  /\ draw_boxes paint image boxes labels scores categories threshold w
     = draw_boxes paint image (take m boxes) (take m labels) (take m scores)
                  categories threshold w
  /\ ((forall i bx lbl, (i < m)%nat ->
         boxes !! i = Some bx -> labels !! i = Some lbl ->
         well_ordered bx /\ ~ out_of_range categories lbl) ->
      fst (draw_boxes paint image boxes labels scores categories threshold w)
      = Ok image).
Proof.
  intros m. split; [apply zip3_length|]. split.
  - unfold draw_boxes. rewrite zip3_take by (subst m; lia). reflexivity.
  - intros Hvalid. rewrite draw_boxes_run. cbn [fst].
    rewrite loop_run_ok; [reflexivity|].
    apply detection_result_ok. intros bx lbl score Hin _.
    apply list_elem_of_lookup in Hin as [i Hi].
    pose proof (lookup_lt_Some _ _ _ Hi) as Hlt.
    rewrite zip3_length in Hlt. fold m in Hlt.
    apply zip3_lookup in Hi as (Hb & Hl & _).
    exact (Hvalid i bx lbl Hlt Hb Hl).
Qed.

Lemma draw_boxes_unequal_lengths_witness :
  length (zip3 scenario_boxes [0; 1; 1; 7; 7] [fl32 (9 # 10); (1 # 2)%Q])
  = 2%nat
  /\ draw_boxes Pil.paint 1%positive scenario_boxes [0; 1; 1; 7; 7]
                [fl32 (9 # 10); (1 # 2)%Q] coco2 (1 # 2) world0
     = draw_boxes Pil.paint 1%positive (take 2 scenario_boxes)
                  (take 2 [0; 1; 1; 7; 7])
                  (take 2 [fl32 (9 # 10); (1 # 2)%Q]) coco2 (1 # 2) world0
  /\ ((forall i bx lbl, (i < 2)%nat ->
         scenario_boxes !! i = Some bx ->
         [0; 1; 1; 7; 7] !! i = Some lbl ->
         well_ordered bx /\ ~ out_of_range coco2 lbl) ->
      fst (draw_boxes Pil.paint 1%positive scenario_boxes [0; 1; 1; 7; 7]
                      [fl32 (9 # 10); (1 # 2)%Q] coco2 (1 # 2) world0)
      = Ok 1%positive).
Proof.
  apply (draw_boxes_unequal_lengths Pil.paint 1%positive scenario_boxes
           [0; 1; 1; 7; 7] [fl32 (9 # 10); (1 # 2)%Q] coco2 (1 # 2) world0).
Defined.

(** ** Model selection in [handle_photo] *)

(** C4. The model used for a request is the registry entry under the name
    the selector predicts; when that name is not a key of the registry the
    request raises [KeyError] for it before anything is copied or drawn.
    There is no default entry. *)
Theorem model_selection
    (paint : DrawCmd -> ndarray -> ndarray) (cv : OpenCV)
    (selector : Features -> string)
    (models_available : gmap string ModelEntry)
    (decoded : Image) (w : World) (f : Features) :
  extract_image_features cv decoded = Ok f ->
  (forall out info w',
     handle_photo paint cv selector models_available decoded w
     = (Ok (out, info), w') ->
     models_available !! selector f = Some info)
  /\ (models_available !! selector f = None ->
      exists w',
        handle_photo paint cv selector models_available decoded w
        = (Raise (KeyError (selector f)), w')
        /\ trace w' = trace w
        /\ size (heap w') = S (size (heap w))).
Proof.
  intros Hf. unfold handle_photo, mbind, M_bind, new_image, lift, lookup_model.
  rewrite Hf. destruct (models_available !! selector f) as [info|] eqn:E.
  - split; [|discriminate].
    intros out info' w' H.
    destruct (annotate _ _ _ _ _ _ _) as [[r|e] w'']; [|discriminate H].
    unfold mret, M_ret in H. injection H as _ <- _. reflexivity.
  - split.
    + intros out info w' H. discriminate H.
    + intros _. eexists. split; [reflexivity|]. split; [reflexivity|].
      simpl. apply map_size_insert_None.
      apply not_elem_of_dom. apply is_fresh.
Qed.

Lemma model_selection_witness :
  (forall out info w',
     handle_photo Pil.paint Cv2.reference stub_selector registry2 red_1 world0
     = (Ok (out, info), w') ->
     registry2 !! stub_selector red_1_features = Some info)
  /\ (registry2 !! stub_selector red_1_features = None ->
      exists w',
        handle_photo Pil.paint Cv2.reference stub_selector registry2 red_1
                     world0
        = (Raise (KeyError (stub_selector red_1_features)), w')
        /\ trace w' = trace world0
        /\ size (heap w') = S (size (heap world0))).
Proof.
  apply (model_selection Pil.paint Cv2.reference stub_selector registry2
           red_1 world0 red_1_features).
  vm_compute. reflexivity.
Defined.

(** Both outcomes on the example registry: the black image is routed to an
    entry that exists, the red pixel to a name the registry lacks. *)
Lemma handle_photo_examples :
  stub_selector black_100_features = "fasterrcnn"
  /\ (exists out info w',
        handle_photo Pil.paint Cv2.reference stub_selector registry2
                     black_100 world0 = (Ok (out, info), w')
        /\ me_name info = "Faster R-CNN")
  /\ fst (handle_photo Pil.paint Cv2.reference stub_selector registry2
                       red_1 world0)
     = Raise (KeyError "ssd").
Proof.
  split; [reflexivity|]. split.
  - eexists _, _, _. split; [vm_compute; reflexivity | reflexivity].
  - vm_compute. reflexivity.
Qed.

(** * Further properties of the code *)

(** ** The perturbation of [extract_image_features] *)

(** X1. For an image of width and height at least 1 with fewer than 2^52
    significant contours, the perturbed object count stays within 80% to
    120% of their number: it lies between [max(1, floor(0.8 n))] and
    [max(1, floor(1.2 n))]; in particular it is 1 when there is at most one
    significant contour. *)
Theorem num_objects_mod_bounds (cv : OpenCV) (image : Image) (w h : Z) :
  im_size image = (w, h) -> 1 <= w -> 1 <= h ->
  num_objects cv w h (im_array image) < 2 ^ 52 ->
  exists f, extract_image_features cv image = Ok f
    /\ Z.max 1 (4 * num_objects cv w h (im_array image) / 5)
       <= num_objects_mod f
       <= Z.max 1 (6 * num_objects cv w h (im_array image) / 5)
    /\ (num_objects cv w h (im_array image) <= 1 -> num_objects_mod f = 1).
Proof.
  intros Hsz Hw Hh Hn. unfold extract_image_features. rewrite Hsz.
  destruct (Z.eqb_spec w 0) as [->|_]; [lia|].
  destruct (Z.eqb_spec h 0) as [->|_]; [lia|].
  eexists. split; [reflexivity|]. cbn [num_objects_mod].
  rewrite py_max_Z_max.
  set (n := num_objects cv w h (im_array image)) in *.
  pose proof (num_objects_nonneg cv w h (im_array image)) as Hn0.
  fold n in Hn0.
  pose proof (count_mod_bounds n (im_array image) ltac:(lia)) as [B0 B1].
  split; [lia|]. intros H1.
  assert (H6 : 6 * n / 5 < 2) by (apply Z.div_lt_upper_bound; lia).
  lia.
Qed.

Lemma num_objects_mod_bounds_witness :
  exists f, extract_image_features Cv2.reference red_3 = Ok f
    /\ Z.max 1 (4 * num_objects Cv2.reference 3 3 (im_array red_3) / 5)
       <= num_objects_mod f
       <= Z.max 1 (6 * num_objects Cv2.reference 3 3 (im_array red_3) / 5)
    /\ (num_objects Cv2.reference 3 3 (im_array red_3) <= 1 ->
        num_objects_mod f = 1).
Proof.
  apply (num_objects_mod_bounds Cv2.reference red_3 3 3);
    [reflexivity | lia | lia | vm_compute; reflexivity].
Defined.

(** X2. For an image of width and height at least 1 the area feature is
    the mean area scaled by a factor between the floats 0.7 and 1.3 and cut
    at 1. *)
Theorem mean_area_mod_bounds (cv : OpenCV) (image : Image) (w h : Z) :
  im_size image = (w, h) -> 1 <= w -> 1 <= h ->
  exists f, extract_image_features cv image = Ok f
    /\ (Qmin (fmul (mean_area cv w h (im_array image)) (fl64 (7 # 10))) 1
        <= mean_area_mod f
        <= Qmin (fmul (mean_area cv w h (im_array image)) (fl64 (13 # 10)))
                1)%Q.
Proof.
  intros Hsz Hw Hh. unfold extract_image_features. rewrite Hsz.
  destruct (Z.eqb_spec w 0) as [->|_]; [lia|].
  destruct (Z.eqb_spec h 0) as [->|_]; [lia|].
  eexists. split; [reflexivity|]. cbn [mean_area_mod].
  set (ma := mean_area cv w h (im_array image)).
  pose proof (mean_area_nonneg cv w h (im_array image) Hw Hh) as Hma.
  fold ma in Hma.
  pose proof (area_factor_range (im_array image)) as [F0 F1].
  assert (H7 : (0 <= fl64 (7 # 10))%Q) by (vm_compute; discriminate).
  assert (H13 : (area_factor_max <= fl64 (13 # 10))%Q)
    by (vm_compute; discriminate).
  assert (Lo : (fmul ma (fl64 (7 # 10))
                <= fmul ma (area_factor (im_array image)))%Q)
    by (apply fmul_mono; [exact Hma | apply Qle_refl | exact H7 | exact F0]).
  assert (Hi : (fmul ma (area_factor (im_array image))
                <= fmul ma (fl64 (13 # 10)))%Q).
  { apply fmul_mono; [exact Hma | apply Qle_refl | lra | lra]. }
  rewrite (py_min_Q_min (fmul ma (area_factor (im_array image))) 1).
  split; apply Q.min_le_compat_r; assumption.
Qed.

Lemma mean_area_mod_bounds_witness :
  exists f, extract_image_features Cv2.reference red_3 = Ok f
    /\ (Qmin (fmul (mean_area Cv2.reference 3 3 (im_array red_3))
                   (fl64 (7 # 10))) 1
        <= mean_area_mod f
        <= Qmin (fmul (mean_area Cv2.reference 3 3 (im_array red_3))
                      (fl64 (13 # 10))) 1)%Q.
Proof.
  apply (mean_area_mod_bounds Cv2.reference red_3 3 3);
    [reflexivity | lia | lia].
Defined.

(** ** The drawing loop: frame, counts, errors and composition *)

(** X3. [draw_boxes] works in place and only on the image it is given: when
    it returns, it returns that very object; whether it returns or raises,
    every other object of the store is untouched, no object is created or
    removed, the image keeps its size, the installed fonts are unchanged and
    every drawing call it carried out targets that image. *)
Theorem draw_boxes_frame
    (paint : DrawCmd -> ndarray -> ndarray) (image : loc)
    (boxes : list box) (labels : list Z) (scores : list Q)
    (categories : list string) (threshold : Q) (w : World) :
  let res := draw_boxes paint image boxes labels scores categories
                        threshold w in
  (forall out, fst res = Ok out -> out = image)
  /\ (forall l, l <> image -> heap (snd res) !! l = heap w !! l)
  /\ dom (heap (snd res)) = dom (heap w)
  /\ im_size <$> heap (snd res) !! image = im_size <$> heap w !! image
  /\ font_files (snd res) = font_files w
  /\ exists cmds, trace (snd res) = trace w ++ map (pair image) cmds.
Proof.
  intros res. subst res. rewrite draw_boxes_run. cbn [fst snd].
  split.
  { intros out H. destruct (fst (loop_run _ _ _ _)) as [[]|e];
      [congruence | discriminate H]. }
  split; [intros l Hl; apply heap_issue_ne, Hl|].
  split; [apply dom_issue|].
  split; [apply heap_issue_size|].
  split; [apply font_files_issue|].
  eexists. apply trace_issue.
Qed.

Lemma draw_boxes_frame_witness :
  let res := draw_boxes Pil.paint 2%positive scenario_boxes [0; 5; 1]
                        scenario_scores coco2 (1 # 2) world1 in
  (forall out, fst res = Ok out -> out = 2%positive)
  /\ (forall l, l <> 2%positive -> heap (snd res) !! l = heap world1 !! l)
  /\ dom (heap (snd res)) = dom (heap world1)
  /\ im_size <$> heap (snd res) !! 2%positive
     = im_size <$> heap world1 !! 2%positive
  /\ font_files (snd res) = font_files world1
  /\ exists cmds, trace (snd res) = trace world1 ++ map (pair 2%positive) cmds.
Proof.
  apply (draw_boxes_frame Pil.paint 2%positive scenario_boxes [0; 5; 1]
           scenario_scores coco2 (1 # 2) world1).
Defined.







(** X7. A missing font file is never fatal and changes nothing but the
    font: the outcome of [draw_boxes] (the image or the exception) is the
    same in every world, and every text it draws uses the 16-point
    "OCR-B.ttf" when that file can be opened and the default font when it
    cannot, in black for the outline and white for the fill. *)
Theorem draw_boxes_font_fallback
    (paint : DrawCmd -> ndarray -> ndarray) (image : loc)
    (boxes : list box) (labels : list Z) (scores : list Q)
    (categories : list string) (threshold : Q) (w : World) :
  (forall paint2 w2,
     fst (draw_boxes paint image boxes labels scores categories threshold w)
     = fst (draw_boxes paint2 image boxes labels scores categories
                       threshold w2))
  /\ (exists cmds,
        trace (snd (draw_boxes paint image boxes labels scores categories
                               threshold w))
        = trace w ++ map (pair image) cmds
        /\ forall xy text f fill, Text xy text f fill ∈ cmds ->
             f = (if decide ("OCR-B.ttf" ∈ font_files w)
                  then TrueType "OCR-B.ttf" 16 else DefaultFont)
             /\ (fill = "black" \/ fill = "white")).
Proof.
  split.
  - intros paint2 w2. rewrite !draw_boxes_run. cbn [fst].
    rewrite (loop_run_result_font (font_of w) (font_of w2)). reflexivity.
  - rewrite draw_boxes_run. cbn [snd]. eexists.
    split; [apply trace_issue|].
    intros xy text f fill Hin.
    apply loop_run_cmds in Hin as (d & _ & Hd).
    exact (drawn_for_fonts _ _ _ _ _ _ _ _ Hd).
Qed.

Lemma draw_boxes_font_fallback_witness :
  (forall paint2 w2,
     fst (draw_boxes Pil.paint 1%positive scenario_boxes scenario_labels
                     scenario_scores coco2 (1 # 2) world0)
     = fst (draw_boxes paint2 1%positive scenario_boxes scenario_labels
                       scenario_scores coco2 (1 # 2) w2))
  /\ (exists cmds,
        trace (snd (draw_boxes Pil.paint 1%positive scenario_boxes
                               scenario_labels scenario_scores coco2
                               (1 # 2) world0))
        = trace world0 ++ map (pair 1%positive) cmds
        /\ forall xy text f fill, Text xy text f fill ∈ cmds ->
             f = (if decide ("OCR-B.ttf" ∈ font_files world0)
                  then TrueType "OCR-B.ttf" 16 else DefaultFont)
             /\ (fill = "black" \/ fill = "white")).
Proof.
  apply (draw_boxes_font_fallback Pil.paint 1%positive scenario_boxes
           scenario_labels scenario_scores coco2 (1 # 2) world0).
Defined.

(** X8. Drawing composes: when the three sequences start with parts of equal
    length on which [draw_boxes] returns, drawing the whole sequences is
    drawing those parts first and the remainders next, on the world the
    first call left. *)
Theorem draw_boxes_append
    (paint : DrawCmd -> ndarray -> ndarray) (image : loc)
    (boxes1 boxes2 : list box) (labels1 labels2 : list Z)
    (scores1 scores2 : list Q)
    (categories : list string) (threshold : Q) (w w1 : World) :
  length boxes1 = length labels1 -> length labels1 = length scores1 ->
  draw_boxes paint image boxes1 labels1 scores1 categories threshold w
  = (Ok image, w1) ->
  draw_boxes paint image (boxes1 ++ boxes2) (labels1 ++ labels2)
             (scores1 ++ scores2) categories threshold w
  = draw_boxes paint image boxes2 labels2 scores2 categories threshold w1.
Proof.
  intros H1 H2 Hrun. rewrite draw_boxes_run in Hrun.
  rewrite !draw_boxes_run, (zip3_app _ _ _ _ _ _ H1 H2), loop_run_app.
  destruct (loop_run (font_of w) categories threshold
                     (zip3 boxes1 labels1 scores1)) as [[[]|e] cmds1];
    cbn [fst snd] in *; [|discriminate Hrun].
  injection Hrun as <-. rewrite font_of_issue, issue_app. reflexivity.
Qed.

Lemma draw_boxes_append_witness :
  draw_boxes Pil.paint 1%positive
             ([(10, 10, 50, 50)%Q] ++ [(1, 1, 5, 5)%Q; (2, 2, 6, 6)%Q])
             ([0] ++ [1; 1]) ([(9 # 10)%Q] ++ [(1 # 2)%Q; (49 # 100)%Q])
             coco2 (1 # 2) world0
  = draw_boxes Pil.paint 1%positive [(1, 1, 5, 5)%Q; (2, 2, 6, 6)%Q] [1; 1]
               [(1 # 2)%Q; (49 # 100)%Q] coco2 (1 # 2)
               (snd (draw_boxes Pil.paint 1%positive [(10, 10, 50, 50)%Q] [0]
                                [(9 # 10)%Q] coco2 (1 # 2) world0)).
Proof.
  apply (draw_boxes_append Pil.paint 1%positive [(10, 10, 50, 50)%Q]
           [(1, 1, 5, 5)%Q; (2, 2, 6, 6)%Q] [0] [1; 1] [(9 # 10)%Q]
           [(1 # 2)%Q; (49 # 100)%Q] coco2 (1 # 2) world0);
    [reflexivity | reflexivity | reflexivity].
Defined.

(** ** The label text *)

Lemma round_half_even_percent (x : Q) :
  (0 <= x <= 100)%Q -> 0 <= round_half_even x <= 100.
Proof.
  intros [H0 H1]. split.
  - apply round_half_even_lower. exact H0.
  - apply round_half_even_upper. exact H1.
Qed.

Lemma percent_range (s : Q) : (0 <= s <= 1)%Q -> (0 <= percent s <= 100)%Q.
Proof.
  intros [H0 H1]. split; [apply percent_nonneg, H0|].
  assert (E : fl32 100 = 100%Q) by (vm_compute; reflexivity).
  rewrite <- E. apply fl32_mono. lra.
Qed.

(** X9. For scores between 0 and 1 the label shows a whole percentage
    between 0 and 100, and a higher score never shows a lower percentage. *)
Theorem label_percentage
    (categories : list string) (lbl : Z) (name : string) (s1 s2 : Q) :
  py_getitem categories lbl = Ok name ->
  (0 <= s1)%Q -> (s1 <= s2)%Q -> (s2 <= 1)%Q ->
  exists n1 n2 : Z,
    make_label categories lbl s1 = Ok (name +:+ " " +:+ pretty n1 +:+ "%")
    /\ make_label categories lbl s2 = Ok (name +:+ " " +:+ pretty n2 +:+ "%")
    /\ 0 <= n1 /\ n1 <= n2 /\ n2 <= 100.
Proof.
  intros Hname H0 H12 H1.
  exists (round_half_even (percent s1)), (round_half_even (percent s2)).
  rewrite !(make_label_ok _ _ _ _ Hname) by lra.
  split; [reflexivity|]. split; [reflexivity|].
  pose proof (round_half_even_percent (percent s1)
                (percent_range s1 ltac:(split; lra))).
  pose proof (round_half_even_percent (percent s2)
                (percent_range s2 ltac:(split; lra))).
  pose proof (round_half_even_mono _ _ (percent_mono s1 s2 H12)).
  lia.
Qed.

Lemma label_percentage_witness :
  exists n1 n2 : Z,
    make_label coco2 1 (1 # 8) = Ok ("car" +:+ " " +:+ pretty n1 +:+ "%")
    /\ make_label coco2 1 (995 # 1000)
       = Ok ("car" +:+ " " +:+ pretty n2 +:+ "%")
    /\ 0 <= n1 /\ n1 <= n2 /\ n2 <= 100.
Proof.
  apply (label_percentage coco2 1 "car" (1 # 8) (995 # 1000));
    [reflexivity | discriminate | discriminate | discriminate].
Defined.

(** X10. A negative label index from [-len(categories)] to [-1] is not an
    error: it names the category [len(categories) + lbl], counted from the
    end of the vocabulary, exactly as the non-negative index would. *)
Theorem negative_label_wraps
    (categories : list string) (lbl : Z) (score : Q) :
  - Z.of_nat (length categories) <= lbl < 0 ->
  make_label categories lbl score
  = make_label categories (lbl + Z.of_nat (length categories)) score
  /\ exists name,
       categories !! Z.to_nat (lbl + Z.of_nat (length categories)) = Some name
       /\ make_label categories lbl score
          = Ok (name +:+ " " +:+ format_0f (percent score) +:+ "%").
Proof.
  intros H.
  destruct (py_getitem_negative categories lbl H) as (name & Hname & E1 & E2).
  unfold make_label. rewrite E1, E2. split; [reflexivity|].
  exists name. split; [exact Hname | reflexivity].
Qed.

Lemma negative_label_wraps_witness :
  make_label coco2 (-2) (3 # 4)
  = make_label coco2 (-2 + Z.of_nat (length coco2)) (3 # 4)
  /\ exists name,
       coco2 !! Z.to_nat (-2 + Z.of_nat (length coco2)) = Some name
       /\ make_label coco2 (-2) (3 # 4)
          = Ok (name +:+ " " +:+ format_0f (percent (3 # 4)) +:+ "%").
Proof.
  apply (negative_label_wraps coco2 (-2) (3 # 4)). simpl. lia.
Defined.

(** ** The request pipeline as a whole *)

Section Pipeline.
Variable paint : DrawCmd -> ndarray -> ndarray.
Variable cv : OpenCV.
Variable selector : Features -> string.
Variable models_available : gmap string ModelEntry.

Lemma handle_photo_run (decoded : Image) (w : World) :
  handle_photo paint cv selector models_available decoded w
  = let image := fresh (dom (heap w)) in
    let w0 := {| heap := <[image := decoded]> (heap w);
                 font_files := font_files w; trace := trace w |} in
    match extract_image_features cv decoded with
    | Raise e => (Raise e, w0)
    | Ok f =>
        match models_available !! selector f with
        | None => (Raise (KeyError (selector f)), w0)
        | Some info =>
            let pred := me_model info decoded in
            let run := loop_run (font_of w) (me_categories info) (1 # 2)
                         (zip3 (pred_boxes pred) (pred_labels pred)
                               (pred_scores pred)) in
            let copy := fresh (dom (heap w0)) in
            (match fst run with
             | Ok _ => Ok (copy, info)
             | Raise e => Raise e
             end,
             issue paint copy (snd run)
                   {| heap := <[copy := decoded]> (heap w0);
                      font_files := font_files w; trace := trace w |})
        end
    end.
Proof.
  unfold handle_photo, annotate, image_copy, new_image, lookup_model,
    lift, mbind, M_bind.
  destruct (extract_image_features cv decoded) as [f|e]; [|reflexivity].
  destruct (models_available !! selector f) as [info|]; [|reflexivity].
  cbn [heap]. rewrite lookup_insert_eq. rewrite draw_boxes_run.
  cbn [fst snd heap font_files trace]. unfold font_of. cbn [font_files].
  destruct (fst (loop_run _ _ _ _)) as [[]|e]; reflexivity.
Qed.
End Pipeline.

(** X11. An image of width 0 makes [handle_photo] raise
    [ZeroDivisionError] in feature extraction, whatever the selector and
    the registry are: no model is looked up, nothing is copied or drawn, and
    the only new object is the decoded image itself. *)
Theorem handle_photo_zero_width
    (paint : DrawCmd -> ndarray -> ndarray) (cv : OpenCV)
    (selector : Features -> string)
    (models_available : gmap string ModelEntry)
    (decoded : Image) (w : World) :
  fst (im_size decoded) = 0 ->
  handle_photo paint cv selector models_available decoded w
  = (Raise ZeroDivisionError,
     {| heap := <[fresh (dom (heap w)) := decoded]> (heap w);
        font_files := font_files w;
        trace := trace w |}).
Proof.
  intros Hw. rewrite handle_photo_run. cbv zeta.
  unfold extract_image_features. destruct (im_size decoded) as [w0 h0].
  simpl in Hw. subst w0. reflexivity.
Qed.

Lemma handle_photo_zero_width_witness :
  handle_photo Pil.paint Cv2.reference stub_selector registry2
               {| im_size := (0, 5); im_array := Color (replicate 5 []) |}
               world1
  = (Raise ZeroDivisionError,
     {| heap := <[fresh (dom (heap world1))
                  := {| im_size := (0, 5);
                        im_array := Color (replicate 5 []) |}]>
                  (heap world1);
        font_files := font_files world1;
        trace := trace world1 |}).
Proof.
  apply (handle_photo_zero_width Pil.paint Cv2.reference stub_selector
           registry2
           {| im_size := (0, 5); im_array := Color (replicate 5 []) |}
           world1).
  reflexivity.
Defined.

(** X12. End to end: when the extraction returns features, the registry has
    an entry under the predicted name, and the detections that entry's
    model predicts with score at least 0.5 have boxes that [rectangle]
    accepts and labels that index its vocabulary, [handle_photo] returns
    that entry with a new image object.  The new object has the size of the
    decoded image and received, in order, the marks of that model's
    detections at threshold 0.5 with that entry's categories; the decoded
    image and all earlier objects are unchanged. *)
Theorem handle_photo_success
    (paint : DrawCmd -> ndarray -> ndarray) (cv : OpenCV)
    (selector : Features -> string)
    (models_available : gmap string ModelEntry)
    (decoded : Image) (w : World) (f : Features) (info : ModelEntry) :
  extract_image_features cv decoded = Ok f ->
  models_available !! selector f = Some info ->
  (forall bx lbl score,
     (bx, lbl, score) ∈ zip3 (pred_boxes (me_model info decoded))
                             (pred_labels (me_model info decoded))
                             (pred_scores (me_model info decoded)) ->
     (1 # 2 <= score)%Q ->
     well_ordered bx /\ ~ out_of_range (me_categories info) lbl) ->
  exists out w',
    handle_photo paint cv selector models_available decoded w
    = (Ok (out, info), w')
    /\ out <> fresh (dom (heap w))
    /\ heap w !! out = None
    /\ heap w' !! fresh (dom (heap w)) = Some decoded
    /\ (forall l im0, heap w !! l = Some im0 -> heap w' !! l = Some im0)
    /\ (exists im', heap w' !! out = Some im'
                    /\ im_size im' = im_size decoded)
    /\ trace w'
       = trace w
         ++ map (pair out)
                (flat_map (drawn_for (font_of w) (me_categories info) (1 # 2))
                          (zip3 (pred_boxes (me_model info decoded))
                                (pred_labels (me_model info decoded))
                                (pred_scores (me_model info decoded)))).
Proof.
  intros Hf Hinfo Hvalid. rewrite handle_photo_run. cbv zeta.
  rewrite Hf, Hinfo.
  rewrite (loop_run_ok _ _ _ _ (detection_result_ok _ _ _ Hvalid)).
  cbn [fst snd].
  set (image := fresh (dom (heap w))).
  assert (Himage : heap w !! image = None)
    by (apply not_elem_of_dom, is_fresh).
  set (w0 := {| heap := <[image := decoded]> (heap w);
                font_files := font_files w; trace := trace w |}).
  set (copy := fresh (dom (heap w0))).
  assert (Hcopy : heap w0 !! copy = None)
    by (apply not_elem_of_dom, is_fresh).
  assert (Hne : copy <> image).
  { intros E. rewrite E in Hcopy. subst w0. simpl in Hcopy.
    rewrite lookup_insert_eq in Hcopy. discriminate Hcopy. }
  assert (Hcopy_w : heap w !! copy = None).
  { subst w0. simpl in Hcopy. rewrite lookup_insert_ne in Hcopy by congruence.
    exact Hcopy. }
  eexists _, _. split; [reflexivity|].
  split; [exact Hne|]. split; [exact Hcopy_w|]. split.
  { rewrite heap_issue_ne by congruence. simpl.
    rewrite lookup_insert_ne by congruence. apply lookup_insert_eq. }
  split.
  { intros l im0 Hl. rewrite heap_issue_ne by congruence. simpl.
    rewrite !lookup_insert_ne by congruence. exact Hl. }
  split.
  { match goal with
    | |- context [issue paint copy ?cmds ?w1] =>
        pose proof (heap_issue_size paint copy cmds w1) as Hsz
    end.
    simpl in Hsz. rewrite lookup_insert_eq in Hsz. simpl in Hsz.
    destruct (heap (issue paint copy _ _) !! copy) as [im'|];
      [|discriminate Hsz].
    exists im'. split; [reflexivity|]. simpl in Hsz. congruence. }
  rewrite trace_issue. reflexivity.
Qed.

Lemma handle_photo_success_witness :
  exists out w',
    handle_photo Pil.paint Cv2.reference stub_selector registry2 black_100
                 world1
    = (Ok (out, {| me_name := "Faster R-CNN"; me_model := stub_model;
                   me_categories := coco2 |}), w')
    /\ out <> fresh (dom (heap world1))
    /\ heap world1 !! out = None
    /\ heap w' !! fresh (dom (heap world1)) = Some black_100
    /\ (forall l im0, heap world1 !! l = Some im0 -> heap w' !! l = Some im0)
    /\ (exists im', heap w' !! out = Some im'
                    /\ im_size im' = im_size black_100)
    /\ trace w'
       = trace world1
         ++ map (pair out)
                (flat_map (drawn_for (font_of world1) coco2 (1 # 2))
                          (zip3 scenario_boxes scenario_labels
                                scenario_scores)).
Proof.
  apply (handle_photo_success Pil.paint Cv2.reference stub_selector registry2
           black_100 world1 black_100_features
           {| me_name := "Faster R-CNN"; me_model := stub_model;
              me_categories := coco2 |}).
  - vm_compute. reflexivity.
  - reflexivity.
  - intros bx lbl score Hin _. unfold out_of_range. simpl.
    repeat (apply elem_of_cons in Hin as [Hin|Hin];
            [injection Hin as -> -> _;
             split; [split; discriminate | lia]|]).
    inversion Hin.
Defined.

(** X13. Whatever the outcome of [handle_photo], every earlier image object
    and the installed fonts are as they were, the decoded image is stored
    unchanged, and every drawing call carried out targets one object that
    is neither an earlier one nor the decoded image. *)
Theorem handle_photo_outcomes
    (paint : DrawCmd -> ndarray -> ndarray) (cv : OpenCV)
    (selector : Features -> string)
    (models_available : gmap string ModelEntry)
    (decoded : Image) (w : World) :
  let res := handle_photo paint cv selector models_available decoded w in
  (forall l im0, heap w !! l = Some im0 -> heap (snd res) !! l = Some im0)
  /\ heap (snd res) !! fresh (dom (heap w)) = Some decoded
  /\ font_files (snd res) = font_files w
  /\ exists copy cmds,
       trace (snd res) = trace w ++ map (pair copy) cmds
       /\ heap w !! copy = None
       /\ copy <> fresh (dom (heap w)).
Proof.
  intros res. subst res. rewrite handle_photo_run. cbv zeta.
  set (image := fresh (dom (heap w))).
  assert (Himage : heap w !! image = None)
    by (apply not_elem_of_dom, is_fresh).
  assert (Hold : forall l im0, heap w !! l = Some im0 -> l <> image)
    by (intros l im0 Hl E; congruence).
  set (w0 := {| heap := <[image := decoded]> (heap w);
                font_files := font_files w; trace := trace w |}).
  set (copy := fresh (dom (heap w0))).
  assert (Hcopy : heap w0 !! copy = None)
    by (apply not_elem_of_dom, is_fresh).
  assert (Hne : copy <> image).
  { intros E. rewrite E in Hcopy. subst w0. simpl in Hcopy.
    rewrite lookup_insert_eq in Hcopy. discriminate Hcopy. }
  assert (Hcopy_w : heap w !! copy = None).
  { subst w0. simpl in Hcopy. rewrite lookup_insert_ne in Hcopy by congruence.
    exact Hcopy. }
  assert (Hfail : forall r : result (loc * ModelEntry),
            (forall l im0, heap w !! l = Some im0 ->
               heap (snd (r, w0)) !! l = Some im0)
            /\ heap (snd (r, w0)) !! image = Some decoded
            /\ font_files (snd (r, w0)) = font_files w
            /\ exists copy cmds,
                 trace (snd (r, w0)) = trace w ++ map (pair copy) cmds
                 /\ heap w !! copy = None /\ copy <> image).
  { intros r. cbn [snd]. subst w0. cbn [heap font_files trace].
    split; [intros l im0 Hl; rewrite lookup_insert_ne;
            [exact Hl | intros E; exact (Hold _ _ Hl (eq_sym E))]|].
    split; [apply lookup_insert_eq|]. split; [reflexivity|].
    exists copy, []. rewrite app_nil_r. auto. }
  destruct (extract_image_features cv decoded) as [f|e0]; [|apply Hfail].
  destruct (models_available !! selector f) as [info|]; [|apply Hfail].
  cbn [fst snd]. split.
  { intros l im0 Hl. rewrite heap_issue_ne by congruence. simpl.
    rewrite !lookup_insert_ne; [exact Hl | | ]; congruence. }
  split.
  { rewrite heap_issue_ne by congruence. simpl.
    rewrite lookup_insert_ne by congruence. apply lookup_insert_eq. }
  split; [rewrite font_files_issue; reflexivity|].
  eexists copy, _. split; [rewrite trace_issue; reflexivity|]. auto.
Qed.

Lemma handle_photo_outcomes_witness :
  let res := handle_photo Pil.paint Cv2.reference stub_selector registry2
                          red_1 world1 in
  (forall l im0, heap world1 !! l = Some im0 -> heap (snd res) !! l = Some im0)
  /\ heap (snd res) !! fresh (dom (heap world1)) = Some red_1
  /\ font_files (snd res) = font_files world1
  /\ exists copy cmds,
       trace (snd res) = trace world1 ++ map (pair copy) cmds
       /\ heap world1 !! copy = None
       /\ copy <> fresh (dom (heap world1)).
Proof.
  apply (handle_photo_outcomes Pil.paint Cv2.reference stub_selector
           registry2 red_1 world1).
Defined.



(** ** Degenerate sizes and the default path *)



(** X16. Whatever the image, when no contour found by OpenCV exceeds 0.1%
    of the image area the extraction takes the default path:
    [num_objects_mod = 1] and [mean_area_mod] is the float product of 0.1
    and [0.7 + 0.6*img_hash], which the cut at 1 leaves alone. *)
Theorem no_significant_contours_default
    (cv : OpenCV) (image : Image) (w h : Z) :
  im_size image = (w, h) -> w <> 0 -> h <> 0 ->
  significant_contours cv w h (im_array image) = [] ->
  exists f, extract_image_features cv image = Ok f
    /\ num_objects_mod f = 1
    /\ mean_area_mod f
       = fmul (fl64 (1 # 10))
              (fadd (fl64 (7 # 10))
                    (fmul (fl64 (6 # 10)) (img_hash (im_array image)))).
Proof.
  intros Hsz Hw Hh Hnone. unfold extract_image_features. rewrite Hsz.
  destruct (Z.eqb_spec w 0) as [E|_]; [contradiction|].
  destruct (Z.eqb_spec h 0) as [E|_]; [contradiction|].
  eexists. split; [reflexivity|].
  cbn [num_objects_mod mean_area_mod].
  unfold mean_area, num_objects. rewrite Hnone. simpl length.
  change (0 <? Z.of_nat 0) with false. cbv iota.
  split; [apply count_mod_small; lia|].
  apply default_area_below_one.
Qed.

Lemma no_significant_contours_default_witness :
  exists f, extract_image_features Cv2.reference black_100 = Ok f
    /\ num_objects_mod f = 1
    /\ mean_area_mod f
       = fmul (fl64 (1 # 10))
              (fadd (fl64 (7 # 10))
                    (fmul (fl64 (6 # 10)) (img_hash (im_array black_100)))).
Proof.
  apply (no_significant_contours_default Cv2.reference black_100 100 100);
    [reflexivity | lia | lia | vm_compute; reflexivity].
Defined.
